(** * bundle-docs: a shallow embedding of [main.go] and its properties

    The program walks an mkdocs navigation tree, cleans every markdown
    document it references, stores the result in a table keyed by the
    navigation breadcrumb, and maps help URLs to those breadcrumbs.

    Go strings are byte sequences; they are modelled by [string], whose
    characters are the bytes.  Go maps are [gmap]s, Go slices that are
    appended to while shared are modelled by a heap of backing arrays. *)

From Stdlib Require Import Ascii String List Arith Lia Permutation.
From stdpp Require Import base option list gmap strings.

Local Open Scope string_scope.
Local Open Scope list_scope.

(** ** The [strings] package *)

Module Strings.

Fixpoint drop (n : nat) (s : string) : string :=
  match n, s with
  | S k, String _ s' => drop k s'
  | _, _ => s
  end.

Fixpoint take (n : nat) (s : string) : string :=
  match n, s with
  | S k, String c s' => String c (take k s')
  | _, _ => EmptyString
  end.

Fixpoint HasPrefix (s prefix : string) {struct prefix} : bool :=
  match prefix, s with
  | EmptyString, _ => true
  | String a p', String b s' => if Ascii.eqb a b then HasPrefix s' p' else false
  | String _ _, EmptyString => false
  end.

(** [len(s) >= len(suffix) && s[len(s)-len(suffix):] == suffix] *)
Definition HasSuffix (s suffix : string) : bool :=
  Nat.leb (String.length suffix) (String.length s)
  && String.eqb (drop (String.length s - String.length suffix) s) suffix.

Definition TrimPrefix (s prefix : string) : string :=
  if HasPrefix s prefix then drop (String.length prefix) s else s.

Definition TrimSuffix (s suffix : string) : string :=
  if HasSuffix s suffix then take (String.length s - String.length suffix) s else s.

(** [Index] returns -1 when [substr] does not occur; here [None]. *)
Fixpoint Index (s substr : string) : option nat :=
  if HasPrefix s substr then Some 0
  else match s with
       | EmptyString => None
       | String _ s' => option_map S (Index s' substr)
       end.

(** [ReplaceAll] for a non-empty [old]: non-overlapping occurrences are
    replaced from left to right.  [skip] counts the bytes of an occurrence
    that are still to be passed over. *)
Fixpoint replace_from (old new : string) (skip : nat) (s : string) : string :=
  match s with
  | EmptyString => EmptyString
  | String c s' =>
      match skip with
      | S k => replace_from old new k s'
      | O => if HasPrefix s old
             then new +:+ replace_from old new (String.length old - 1) s'
             else String c (replace_from old new 0 s')
      end
  end.

Definition ReplaceAll (s old new : string) : string :=
  match old with
  | EmptyString => s (* not used: every call site passes a non-empty [old] *)
  | _ => replace_from old new 0 s
  end.

(** The loop of [genSplit] for a non-empty separator: at most [k] cuts. *)
Fixpoint genSplit (k : nat) (s sep : string) : list string :=
  match k with
  | O => [s]
  | S k' =>
      match Index s sep with
      | None => [s]
      | Some m => take m s :: genSplit k' (drop (m + String.length sep) s) sep
      end
  end.

(** [SplitN(s, sep, n)] for [n > 0]: [n] is capped at [len(s)+1]. *)
Definition SplitN (s sep : string) (n : nat) : list string :=
  genSplit (Nat.min n (String.length s + 1) - 1) s sep.

(** [Split(s, sep)] is [SplitN] with [n = Count(s, sep) + 1]; the loop
    stops at the first failing [Index], and [Count(s, sep) <= len(s)]. *)
Definition Split (s sep : string) : list string :=
  genSplit (String.length s) s sep.

Fixpoint Join (elems : list string) (sep : string) : string :=
  match elems with
  | [] => EmptyString
  | [e] => e
  | e :: rest => e +:+ sep +:+ Join rest sep
  end.

Fixpoint contains_byte (cutset : string) (c : ascii) : bool :=
  match cutset with
  | EmptyString => false
  | String d cs => Ascii.eqb c d || contains_byte cs c
  end.

(** [TrimLeft] with an ASCII cutset. *)
Fixpoint TrimLeft (s cutset : string) : string :=
  match s with
  | String c s' => if contains_byte cutset c then TrimLeft s' cutset else s
  | EmptyString => EmptyString
  end.

Definition bytes (l : list nat) : string :=
  string_of_list_ascii (map ascii_of_nat l).

(** The UTF-8 encodings of the runes for which [unicode.IsSpace] holds:
    the ASCII ones, U+0085, U+00A0, U+1680, U+2000..U+200A, U+2028,
    U+2029, U+202F, U+205F and U+3000. *)
Definition space_runes : list string :=
  map bytes
    ([[9]; [10]; [11]; [12]; [13]; [32]; [194; 133]; [194; 160]; [225; 154; 128]]
     ++ map (fun k => [226; 128; 128 + k]) (seq 0 11)
     ++ [[226; 128; 168]; [226; 128; 169]; [226; 128; 175]; [226; 129; 159];
         [227; 128; 128]]).

(** The first white-space rune [s] starts with, if any. *)
Definition leading_space (s : string) : option string :=
  List.find (HasPrefix s) space_runes.

Definition trailing_space (s : string) : option string :=
  List.find (HasSuffix s) space_runes.

Fixpoint trim_left_space (fuel : nat) (s : string) : string :=
  match fuel with
  | O => s
  | S f => match leading_space s with
           | Some r => trim_left_space f (drop (String.length r) s)
           | None => s
           end
  end.

Fixpoint trim_right_space (fuel : nat) (s : string) : string :=
  match fuel with
  | O => s
  | S f => match trailing_space s with
           | Some r => trim_right_space f (take (String.length s - String.length r) s)
           | None => s
           end
  end.

(** [TrimSpace]: every removed rune is at least one byte long, so
    [len(s)] rounds are enough. *)
Definition TrimSpace (s : string) : string :=
  let s1 := trim_left_space (String.length s) s in
  trim_right_space (String.length s1) s1.

Definition is_lower (c : ascii) : bool :=
  Nat.leb 97 (nat_of_ascii c) && Nat.leb (nat_of_ascii c) 122.

Definition upper_byte (c : ascii) : ascii :=
  if is_lower c then ascii_of_nat (nat_of_ascii c - 32) else c.

(** [ToUpper] on a one-byte string, which is all [buildNavPath] passes to
    it: an ASCII byte is upper-cased; any other single byte is not valid
    UTF-8 and [strings.Map] writes U+FFFD for it. *)
Definition ToUpper1 (c : ascii) : string :=
  if Nat.ltb (nat_of_ascii c) 128 then String (upper_byte c) EmptyString
  else bytes [239; 191; 189].

End Strings.

(** ** Path normalisation and synthetic navigation paths *)

Definition normalizeFilePath (file : string) : string :=
  let file := Strings.ReplaceAll file "/docs/" "/" in
  let file := Strings.TrimPrefix file "docs/" in
  let file := Strings.TrimSuffix file ".md" in
  let file := Strings.TrimSuffix file "/index" in
  file.

(** [strings.ToUpper(w[:1]) + w[1:]] for a non-empty [w]. *)
Definition capitalize (w : string) : string :=
  match w with
  | EmptyString => EmptyString
  | String c w' => Strings.ToUpper1 c +:+ w'
  end.

Definition buildNavPath (url : string) : string :=
  let parts := Strings.Split url "/" in
  let parts :=
    map (fun p => Strings.Join (map capitalize (Strings.Split p "-")) " ") parts in
  Strings.Join parts " / ".

(** ** The [regexp] package, for the patterns of [main.go]

    Go's [regexp] returns the match a backtracking search finds first
    (leftmost, then by the priority of greedy and lazy operators).  Every
    pattern of the program starts with a literal byte (after an optional
    line anchor), repeats only single-byte classes and has one capture group
    that wraps one repetition, so this is the fragment modelled.  The
    patterns only distinguish ASCII bytes, and a literal can never start
    inside a multi-byte rune, so matching bytes and matching runes agree. *)

Module Regexp.

Inductive item :=
| One (p : ascii -> bool)                               (* a byte of the class *)
| Opt (p : ascii -> bool)                               (* [x?] *)
| Rep (capture greedy : bool) (least : nat) (p : ascii -> bool)
                                 (* [x*], [x+], [x*?], inside [( )] or not *)
| Eol.                                                  (* [$] under [(?m)] *)

Record regex := Regex {
  bol : bool;                 (* the pattern starts with [(?m)^] *)
  first : ascii -> bool;      (* its first byte *)
  rest : list item
}.

Definition ch (c : ascii) : ascii -> bool := Ascii.eqb c.
Definition nch (c : ascii) : ascii -> bool := fun d => negb (Ascii.eqb c d).
Definition any : ascii -> bool := fun _ => true.
Definition nl : ascii := ascii_of_nat 10.
Definition notnl : ascii -> bool := nch nl.
(** [\s] is [[\t\n\f\r ]]. *)
Definition space (c : ascii) : bool :=
  existsb (Nat.eqb (nat_of_ascii c)) [9; 10; 12; 13; 32].

Fixpoint lit (s : string) : list item :=
  match s with
  | EmptyString => []
  | String c s' => One (ch c) :: lit s'
  end.

Definition bump (r : option (string * nat)) : option (string * nat) :=
  match r with
  | Some (cap, n) => Some (cap, S n)
  | None => None
  end.

(** A repetition of the class [p], at least [least] times: [k] bytes are
    matched so far, [t] is the text that follows, and [next k t] matches
    what comes after the repetition.  A greedy repetition first tries to go
    on, a lazy one first tries to stop. *)
Fixpoint rep (greedy : bool) (least : nat) (p : ascii -> bool)
  (next : nat -> string -> option (string * nat)) (k : nat) (t : string)
  {struct t} : option (string * nat) :=
  if greedy then
    match (match t with
           | String c t' => if p c then bump (rep greedy least p next (S k) t') else None
           | EmptyString => None
           end) with
    | Some m => Some m
    | None => if Nat.leb least k then next k t else None
    end
  else
    match (if Nat.leb least k then next k t else None) with
    | Some m => Some m
    | None =>
        match t with
        | String c t' => if p c then bump (rep greedy least p next (S k) t') else None
        | EmptyString => None
        end
    end.

(** [matchHere r s cap]: the items [r] match a prefix of [s]; the result is
    the text of the capture group ([cap] if the group is not in [r]) and
    the number of bytes matched. *)
Fixpoint matchHere (r : list item) (s : string) (cap : string)
  : option (string * nat) :=
  match r with
  | [] => Some (cap, 0)
  | One p :: r' =>
      match s with
      | String c s' => if p c then bump (matchHere r' s' cap) else None
      | EmptyString => None
      end
  | Opt p :: r' =>
      match s with
      | String c s' =>
          if p c then
            match bump (matchHere r' s' cap) with
            | Some m => Some m
            | None => matchHere r' s cap
            end
          else matchHere r' s cap
      | EmptyString => matchHere r' s cap
      end
  | Rep capture greedy least p :: r' =>
      rep greedy least p
        (fun k t => matchHere r' t (if capture then Strings.take k s else cap)) 0 s
  | Eol :: r' =>
      match s with
      | EmptyString => matchHere r' s cap
      | String c _ => if Ascii.eqb c nl then matchHere r' s cap else None
      end
  end.

(** A match of the whole pattern at the start of [s]; [atbol] tells whether
    [s] starts a line. *)
Definition matchAt (re : regex) (atbol : bool) (s : string)
  : option (string * nat) :=
  if bol re && negb atbol then None
  else match s with
       | String c s' => if first re c then bump (matchHere (rest re) s' EmptyString) else None
       | EmptyString => None
       end.

(** The leftmost match in [s]: its offset, its capture and its length. *)
Fixpoint find (re : regex) (atbol : bool) (s : string)
  : option (nat * string * nat) :=
  match matchAt re atbol s with
  | Some (cap, n) => Some (0, cap, n)
  | None =>
      match s with
      | EmptyString => None
      | String c s' =>
          match find re (Ascii.eqb c nl) s' with
          | Some (off, cap, n) => Some (S off, cap, n)
          | None => None
          end
      end
  end.

Record hit := Hit {
  gap : string;        (* the text between the previous match and this one *)
  text : string;       (* the text of the match *)
  group : string       (* the text of its capture group *)
}.

Fixpoint last_is_nl (s : string) (d : bool) : bool :=
  match s with
  | EmptyString => d
  | String c s' => last_is_nl s' (Ascii.eqb c nl)
  end.

(** The successive non-overlapping matches of [re] in [s] and the text
    after the last one.  A match is at least one byte long, so [fuel]
    bounded by the length of [s] never runs out before the matches do. *)
Fixpoint scan (re : regex) (fuel : nat) (atbol : bool) (s : string)
  : list hit * string :=
  match fuel with
  | O => ([], s)
  | S f =>
      match find re atbol s with
      | None => ([], s)
      | Some (off, cap, n) =>
          let m := Strings.take n (Strings.drop off s) in
          let '(hits, tail) :=
            scan re f (last_is_nl m false) (Strings.drop (off + n) s) in
          (Hit (Strings.take off s) m cap :: hits, tail)
      end
  end.

Definition allMatches (re : regex) (s : string) : list hit * string :=
  scan re (String.length s) true s.

(** [FindStringSubmatch(s)[1]], or [None] for a nil result. *)
Definition FindStringSubmatch (re : regex) (s : string) : option string :=
  match find re true s with
  | Some (_, cap, _) => Some cap
  | None => None
  end.

(** The list of [match[1]] of [FindAllStringSubmatch(s, -1)]. *)
Definition FindAllStringSubmatch (re : regex) (s : string) : list string :=
  map group (fst (allMatches re s)).

Fixpoint concat_strings (l : list string) : string :=
  match l with
  | [] => EmptyString
  | x :: l' => x +:+ concat_strings l'
  end.

(** [ReplaceAllString(s, repl)], the template [repl] given as a function
    of the text of group 1. *)
Definition ReplaceAllString (re : regex) (s : string) (repl : string -> string)
  : string :=
  let '(hits, tail) := allMatches re s in
  concat_strings (map (fun h => gap h +:+ repl (group h)) hits) +:+ tail.

End Regexp.

Import Regexp.

Definition NL : string := String nl EmptyString.

(** [(?s)<div[^>]*display:\s*none[^>]*>(.*?)</div>\s*] *)
Definition hiddenDivRe : regex :=
  Regex false (ch "<")
    (lit "div" ++ [Rep false true 0 (nch ">")] ++ lit "display:"
     ++ [Rep false true 0 space] ++ lit "none"
     ++ [Rep false true 0 (nch ">"); One (ch ">"); Rep true false 0 any]
     ++ lit "</div>" ++ [Rep false true 0 space]).

(** [(?m)^#\s+(.+)$] *)
Definition mdH1Re : regex :=
  Regex true (ch "#") [Rep false true 1 space; Rep true true 1 notnl; Eol].

(** [<hN[^>]*>(.*?)</hN>] *)
Definition headingRe (n : string) : regex :=
  Regex false (ch "<")
    (lit ("h" +:+ n) ++ [Rep false true 0 (nch ">"); One (ch ">");
                        Rep true false 0 notnl] ++ lit ("</h" +:+ n +:+ ">")).

Definition h1Re : regex := headingRe "1".
Definition h2Re : regex := headingRe "2".
Definition h3Re : regex := headingRe "3".

(** [<[^>]+>] *)
Definition htmlTagRe : regex :=
  Regex false (ch "<") [Rep false true 1 (nch ">"); One (ch ">")].

(** [</?span[^>]*>] *)
Definition spanRe : regex :=
  Regex false (ch "<")
    ([Opt (ch "/")] ++ lit "span" ++ [Rep false true 0 (nch ">"); One (ch ">")]).

(** [<br\s*/?>] *)
Definition brRe : regex :=
  Regex false (ch "<")
    (lit "br" ++ [Rep false true 0 space; Opt (ch "/"); One (ch ">")]).

(** [<tag>(.*?)</tag>] *)
Definition pairRe (tag : string) : regex :=
  Regex false (ch "<")
    (lit (tag +:+ ">") ++ [Rep true false 0 notnl] ++ lit ("</" +:+ tag +:+ ">")).

Definition kbdRe : regex := pairRe "kbd".
Definition supRe : regex := pairRe "sup".
Definition strongRe : regex := pairRe "strong".

(** [</?div[^>]*>] *)
Definition divRe : regex :=
  Regex false (ch "<")
    ([Opt (ch "/")] ++ lit "div" ++ [Rep false true 0 (nch ">"); One (ch ">")]).

(** ** The content normaliser *)

Definition stripFrontMatter (s : string) : string :=
  if Strings.HasPrefix s "---" then
    match Strings.Index (Strings.drop 3 s) (NL +:+ "---") with
    | Some e => Strings.TrimLeft (Strings.drop (3 + e + 4) s) NL
    | None => s
    end
  else s.

Definition extractTitle (s : string) : string :=
  match FindStringSubmatch mdH1Re s with
  | Some m => Strings.TrimSpace m
  | None =>
      match FindStringSubmatch h1Re s with
      | Some m => ReplaceAllString htmlTagRe (Strings.TrimSpace m) (fun _ => EmptyString)
      | None => EmptyString
      end
  end.

Definition nonEmpty (s : string) : bool := negb (String.eqb s EmptyString).

Definition extractKeywords (s : string) : string :=
  let kws := filter nonEmpty (map Strings.TrimSpace (FindAllStringSubmatch hiddenDivRe s)) in
  Strings.Join kws " ".

Definition removeHidden (s : string) : string :=
  ReplaceAllString hiddenDivRe s (fun _ => EmptyString).

(** The conversions that follow the removal of the hidden divs. *)
Definition convertMarkup (s : string) : string :=
  let s := ReplaceAllString h1Re s (fun g => "# " +:+ g) in
  let s := ReplaceAllString h2Re s (fun g => "## " +:+ g) in
  let s := ReplaceAllString h3Re s (fun g => "### " +:+ g) in
  let s := ReplaceAllString spanRe s (fun _ => EmptyString) in
  let s := ReplaceAllString brRe s (fun _ => NL) in
  let s := ReplaceAllString kbdRe s (fun g => "`" +:+ g +:+ "`") in
  let s := ReplaceAllString supRe s (fun g => g) in
  let s := ReplaceAllString strongRe s (fun g => "**" +:+ g +:+ "**") in
  let s := ReplaceAllString divRe s (fun _ => EmptyString) in
  s.

(** Returns (title, keywords, cleanedContent). *)
Definition extractTitleAndClean (raw : string) : string * string * string :=
  let s := stripFrontMatter raw in
  let title := extractTitle s in
  let keywords := extractKeywords s in
  let s := removeHidden s in
  (title, keywords, convertMarkup s).

(** ** The [path/filepath] package on slash-separated paths *)

Module Filepath.

Definition rooted (p : string) : bool := Strings.HasPrefix p "/".

(** The elements [Clean] keeps, most recent first in [stack]: empty and
    [.] elements are dropped, [..] removes the element before it, or is
    kept in front of a path that is not rooted. *)
Fixpoint clean_elems (root : bool) (stack : list string) (elems : list string)
  : list string :=
  match elems with
  | [] => rev stack
  | e :: es =>
      if String.eqb e EmptyString || String.eqb e "." then clean_elems root stack es
      else if String.eqb e ".." then
        match stack with
        | top :: below =>
            if String.eqb top ".." then clean_elems root (e :: stack) es
            else clean_elems root below es
        | [] => if root then clean_elems root [] es else clean_elems root [e] es
        end
      else clean_elems root (e :: stack) es
  end.

Definition Clean (p : string) : string :=
  match p with
  | EmptyString => "."
  | _ =>
      let out := Strings.Join (clean_elems (rooted p) [] (Strings.Split p "/")) "/" in
      if rooted p then "/" +:+ out
      else match out with EmptyString => "." | _ => out end
  end.

Fixpoint skip_empty (elem : list string) : list string :=
  match elem with
  | EmptyString :: es => skip_empty es
  | _ => elem
  end.

Definition Join (elem : list string) : string :=
  match skip_empty elem with
  | [] => EmptyString
  | es => Clean (Strings.Join es "/")
  end.

(** The prefix of [p] up to and including its last separator. *)
Fixpoint dir_prefix (p : string) : string :=
  match p with
  | EmptyString => EmptyString
  | String c p' =>
      match Strings.Index p "/" with
      | Some _ => String c (dir_prefix p')
      | None => EmptyString
      end
  end.

Definition Dir (p : string) : string := Clean (dir_prefix p).

Definition elements (p : string) : list string :=
  match Strings.TrimPrefix p "/" with
  | EmptyString => []
  | q => Strings.Split q "/"
  end.

Fixpoint strip_common (b t : list string) : list string * list string :=
  match b, t with
  | x :: b', y :: t' => if String.eqb x y then strip_common b' t' else (b, t)
  | _, _ => (b, t)
  end.

(** [Rel(basepath, targpath)]; [None] is the error result. *)
Definition Rel (basepath targpath : string) : option string :=
  let base := Clean basepath in
  let targ := Clean targpath in
  if String.eqb targ base then Some "."
  else
    let base := if String.eqb base "." then EmptyString else base in
    if negb (Bool.eqb (rooted base) (rooted targ)) then None
    else
      let '(b, t) := strip_common (elements base) (elements targ) in
      match b, t with
      | [], _ => Some (Strings.Join t "/")
      | ".." :: _, _ :: _ => None
      | _, _ => Some (Strings.Join (map (fun _ => "..") b ++ t) "/")
      end.

End Filepath.

(** ** Navigation configuration *)

Inductive Kind := DocumentNode | SequenceNode | MappingNode | ScalarNode | AliasNode.

(** The fields of [yaml.Node] the program reads. *)
#[warnings="-register-all"]
Inductive Node := mkNode {
  node_Kind : Kind;
  node_Value : string;
  node_Content : list Node
}.

Record mkdocsConfig := {
  SiteName : string;
  DocsDir : string;
  Nav : list Node
}.

Record docEntry := {
  path : string;      (* nav breadcrumb *)
  file : string;      (* relative path in repo *)
  title : string;     (* h1 title from document *)
  keywords : string;  (* search keywords from hidden div *)
  content : string;
  exclude : bool      (* true for disambiguation pages *)
}.

Record helpURLEntry := {
  symbol : string;
  url : string
}.

Inductive error :=
| ErrRead (name : string)       (* [os.ReadFile] failed *)
| ErrParse (name : string).     (* the unmarshaller rejected the data *)

(** What [log.Printf] is called with. *)
Inductive warning :=
| WarnDoc (mdPath : string) (e : error)
| WarnInclude (relPath : string) (e : error)
| WarnHelpURLs (e : error).

(** The world around the program: the cloned repository, the two parsers
    it calls, and the choices the Go runtime makes. *)
Record Env := {
  tmpDir : string;                                  (* where the repo was cloned *)
  ReadFile : string -> option string;               (* [os.ReadFile] *)
  yamlUnmarshal : string -> option mkdocsConfig;    (* [yaml.Unmarshal] into the config *)
  jsonUnmarshal : string -> option (list helpURLEntry);
  growslice : nat -> nat;     (* spare capacity when [append] reallocates *)
  rangeOrder : nat -> gmap string string -> list (string * string)
                              (* the order of the n-th [range] over a map *)
}.

Definition parseMkdocs (E : Env) (name : string) : error + mkdocsConfig :=
  match ReadFile E name with
  | None => inl (ErrRead name)
  | Some data =>
      match yamlUnmarshal E data with
      | None => inl (ErrParse name)
      | Some cfg => inr cfg
      end
  end.

Definition parseSymbolURLs (E : Env) (name : string) : error + list helpURLEntry :=
  match ReadFile E name with
  | None => inl (ErrRead name)
  | Some data =>
      match jsonUnmarshal E data with
      | None => inl (ErrParse name)
      | Some raw => inr raw
      end
  end.

(** ** Slices of strings

    A slice is a pointer to a backing array, a length and a capacity.
    [append] writes in place when there is spare capacity, so two slices
    made from the same one share the slot after its last element. *)

Record slice := Slice {
  ptr : nat;
  len : nat;
  cap : nat
}.

Abbreviation heap := (list (list string)).

(** The [nil] slice: no backing array is read through it. *)
Definition nil_slice : slice := Slice 0 0 0.

Definition array (h : heap) (a : nat) : list string := default [] (h !! a).

Definition elems (h : heap) (s : slice) : list string := take (len s) (array h (ptr s)).

Definition append (E : Env) (h : heap) (s : slice) (x : string) : heap * slice :=
  if Nat.ltb (len s) (cap s) then
    (<[ptr s := <[len s := x]> (array h (ptr s))]> h, Slice (ptr s) (S (len s)) (cap s))
  else
    let spare := growslice E (cap s) in
    (h ++ [elems h s ++ x :: replicate spare EmptyString],
     Slice (length h) (S (len s)) (S (len s) + spare)).

(** ** The navigation walker *)

Record state := State {
  mem : heap;
  out : list docEntry;
  logged : list warning
}.

Definition set_mem (h : heap) (st : state) : state := State h (out st) (logged st).
Definition emit (d : docEntry) (st : state) : state :=
  State (mem st) (out st ++ [d]) (logged st).
Definition warn (w : warning) (st : state) : state :=
  State (mem st) (out st) (logged st ++ [w]).

Definition mkDoc (mdPath relFile : string) (breadcrumb : list string) (raw : string)
  : docEntry :=
  let '(title, keywords, content) := extractTitleAndClean raw in
  let navPath := Strings.Join breadcrumb " / " in
  let navPath := if String.eqb navPath EmptyString then mdPath else navPath in
  let title :=
    if String.eqb title EmptyString && Nat.ltb 0 (length breadcrumb)
    then List.last breadcrumb EmptyString else title in
  {| path := navPath; file := relFile; title := title; keywords := keywords;
     content := content; exclude := false |}.

Definition addDoc (E : Env) (mdPath docsDir repoRoot : string) (breadcrumb : slice)
  (st : state) : state :=
  if negb (Strings.HasSuffix mdPath ".md") then st
  else
    let absPath := Filepath.Join [docsDir; mdPath] in
    match ReadFile E absPath with
    | None => warn (WarnDoc mdPath (ErrRead absPath)) st
    | Some raw =>
        let relFile := default EmptyString (Filepath.Rel repoRoot absPath) in
        emit (mkDoc mdPath relFile (elems (mem st) breadcrumb) raw) st
    end.

(** A scalar value that is an inclusion directive. *)
Definition isInclude (value : string) : bool := Strings.HasPrefix value "!include ".
Arguments isInclude : simpl never.

(** The walker can fail to return only by recursing through inclusions
    for ever; [None] stands for that. *)
Fixpoint each {A S : Type} (f : A -> S -> option S) (l : list A) (st : S) : option S :=
  match l with
  | [] => Some st
  | x :: l' => match f x st with
               | Some st' => each f l' st'
               | None => None
               end
  end.

(** [for i := 0; i+1 < len(l); i += 2], on [l[i]] and [l[i+1]]. *)
Fixpoint eachPair {A S : Type} (f : A -> A -> S -> option S) (l : list A) (st : S)
  : option S :=
  match l with
  | key :: val :: l' => match f key val st with
                        | Some st' => eachPair f l' st'
                        | None => None
                        end
  | _ => Some st
  end.

Section WalkNode.
Variable E : Env.
(** [handleInclude], with its recursive call to [walkNav] closed. *)
Variable include : string -> string -> string -> slice -> state -> option state.

Fixpoint walkNavNode (node : Node) (docsDir repoRoot : string) (breadcrumb : slice)
  (st : state) {struct node} : option state :=
  match node with
  | mkNode ScalarNode value _ =>
      Some (addDoc E value docsDir repoRoot breadcrumb st)
  | mkNode MappingNode _ content =>
      eachPair
        (fun key val st =>
           let title := node_Value key in
           match val with
           | mkNode ScalarNode value _ =>
               if isInclude value
               then include value title repoRoot breadcrumb st
               else
                 let '(h, path) := append E (mem st) breadcrumb title in
                 Some (addDoc E value docsDir repoRoot path (set_mem h st))
           | mkNode SequenceNode _ children =>
               let '(h, path) := append E (mem st) breadcrumb title in
               each (fun n => walkNavNode n docsDir repoRoot path) children
                 (set_mem h st)
           | mkNode MappingNode _ _ =>
               let '(h, path) := append E (mem st) breadcrumb title in
               walkNavNode val docsDir repoRoot path (set_mem h st)
           | _ => Some st
           end)
        content st
  | mkNode SequenceNode _ content =>
      each (fun n => walkNavNode n docsDir repoRoot breadcrumb) content st
  | _ => Some st
  end.

Definition walkNodes (nodes : list Node) (docsDir repoRoot : string)
  (breadcrumb : slice) (st : state) : option state :=
  each (fun n => walkNavNode n docsDir repoRoot breadcrumb) nodes st.
End WalkNode.

Definition docsDirOf (cfg : mkdocsConfig) : string :=
  if String.eqb (DocsDir cfg) EmptyString then "docs" else DocsDir cfg.

Definition includePath (value : string) : string :=
  Strings.TrimSpace (Strings.TrimPrefix value "!include ").

Definition handleInclude (E : Env)
  (walk : list Node -> string -> string -> slice -> state -> option state)
  (value parentTitle repoRoot : string) (breadcrumb : slice) (st : state)
  : option state :=
  let relPath := includePath value in
  let absPath := Filepath.Join [repoRoot; relPath] in
  match parseMkdocs E absPath with
  | inl err => Some (warn (WarnInclude relPath err) st)
  | inr cfg =>
      let subsiteDir := Filepath.Dir absPath in
      let absDocsDir := Filepath.Join [subsiteDir; docsDirOf cfg] in
      let '(h, path) := append E (mem st) breadcrumb parentTitle in
      walk (Nav cfg) absDocsDir repoRoot path (set_mem h st)
  end.

(** [walkNav], with [fuel] bounding the depth of nested inclusions. *)
Fixpoint walkNav (E : Env) (fuel : nat) (nodes : list Node) (docsDir repoRoot : string)
  (breadcrumb : slice) (st : state) : option state :=
  match fuel with
  | O => None
  | S f =>
      walkNodes E (handleInclude E (walkNav E f)) nodes docsDir repoRoot breadcrumb st
  end.

(** ** The walker with copy-on-extend breadcrumbs

    The same traversal over breadcrumbs that are immutable lists: extending
    one makes a new list, so no branch can see what another one appended.
    This is what the walker is compared with. *)

Module Pure.

Record view := View {
  v_out : list docEntry;
  v_logged : list warning
}.

Definition emit (d : docEntry) (v : view) : view := View (v_out v ++ [d]) (v_logged v).
Definition warn (w : warning) (v : view) : view := View (v_out v) (v_logged v ++ [w]).

Definition addDoc (E : Env) (mdPath docsDir repoRoot : string)
  (breadcrumb : list string) (v : view) : view :=
  if negb (Strings.HasSuffix mdPath ".md") then v
  else
    let absPath := Filepath.Join [docsDir; mdPath] in
    match ReadFile E absPath with
    | None => warn (WarnDoc mdPath (ErrRead absPath)) v
    | Some raw =>
        let relFile := default EmptyString (Filepath.Rel repoRoot absPath) in
        emit (mkDoc mdPath relFile breadcrumb raw) v
    end.

Section WalkNode.
Variable E : Env.
Variable include : string -> string -> string -> list string -> view -> option view.

Fixpoint walkNavNode (node : Node) (docsDir repoRoot : string)
  (breadcrumb : list string) (v : view) {struct node} : option view :=
  match node with
  | mkNode ScalarNode value _ =>
      Some (addDoc E value docsDir repoRoot breadcrumb v)
  | mkNode MappingNode _ content =>
      eachPair
        (fun key val v =>
           let title := node_Value key in
           match val with
           | mkNode ScalarNode value _ =>
               if isInclude value
               then include value title repoRoot breadcrumb v
               else Some (addDoc E value docsDir repoRoot (breadcrumb ++ [title]) v)
           | mkNode SequenceNode _ children =>
               each (fun n => walkNavNode n docsDir repoRoot (breadcrumb ++ [title]))
                 children v
           | mkNode MappingNode _ _ =>
               walkNavNode val docsDir repoRoot (breadcrumb ++ [title]) v
           | _ => Some v
           end)
        content v
  | mkNode SequenceNode _ content =>
      each (fun n => walkNavNode n docsDir repoRoot breadcrumb) content v
  | _ => Some v
  end.

Definition walkNodes (nodes : list Node) (docsDir repoRoot : string)
  (breadcrumb : list string) (v : view) : option view :=
  each (fun n => walkNavNode n docsDir repoRoot breadcrumb) nodes v.
End WalkNode.

Definition handleInclude (E : Env)
  (walk : list Node -> string -> string -> list string -> view -> option view)
  (value parentTitle repoRoot : string) (breadcrumb : list string) (v : view)
  : option view :=
  let relPath := includePath value in
  let absPath := Filepath.Join [repoRoot; relPath] in
  match parseMkdocs E absPath with
  | inl err => Some (warn (WarnInclude relPath err) v)
  | inr cfg =>
      let subsiteDir := Filepath.Dir absPath in
      let absDocsDir := Filepath.Join [subsiteDir; docsDirOf cfg] in
      walk (Nav cfg) absDocsDir repoRoot (breadcrumb ++ [parentTitle]) v
  end.

Fixpoint walkNav (E : Env) (fuel : nat) (nodes : list Node) (docsDir repoRoot : string)
  (breadcrumb : list string) (v : view) : option view :=
  match fuel with
  | O => None
  | S f =>
      walkNodes E (handleInclude E (walkNav E f)) nodes docsDir repoRoot breadcrumb v
  end.

End Pure.

(** What a state shows of a run: the entries and the warnings. *)
Definition erase (st : state) : Pure.view := Pure.View (out st) (logged st).

(** A slice is well formed in a heap when its backing array is allocated
    with the slice's capacity. *)
Definition wf (h : heap) (s : slice) : Prop :=
  len s <= cap s /\
  (0 < cap s -> exists arr, h !! ptr s = Some arr /\ length arr = cap s).

(** [frame s h h']: going from [h] to [h'], every array of [h] is still
    there with its length, and nothing changed but the slots of the array of
    [s] from index [len s] on. *)
Definition frame (s : slice) (h h' : heap) : Prop :=
  forall a arr, h !! a = Some arr ->
    exists arr', h' !! a = Some arr' /\ length arr' = length arr /\
      forall i, a <> ptr s \/ i < len s -> arr' !! i = arr !! i.

(** ** The tables of the database

    Both tables are filled with [INSERT OR IGNORE] and have a primary key:
    a row whose key is already present is dropped. *)

Definition hasPath (p : string) (table : list docEntry) : bool :=
  existsb (fun r => String.eqb (path r) p) table.

Definition insertDoc (table : list docEntry) (d : docEntry) : list docEntry :=
  if hasPath (path d) table then table else table ++ [d].

Definition hasSymbol (sym : string) (table : list (string * string)) : bool :=
  existsb (fun r => String.eqb (fst r) sym) table.

Definition insertHelpURL (table : list (string * string)) (r : string * string)
  : list (string * string) :=
  if hasSymbol (fst r) table then table else table ++ [r].

(** ** Matching help URLs *)

Definition suffixMatch (url filePath : string) : bool :=
  Strings.HasSuffix filePath ("/" +:+ url) || String.eqb filePath url.

(** [order] is the sequence in which [range fileIndex] yields the entries. *)
Definition matchHelpURL (url : string) (fileIndex : gmap string string)
  (order : list (string * string)) : option string :=
  match fileIndex !! url with
  | Some navPath => Some navPath
  | None =>
      match fileIndex !! (url +:+ "/index") with
      | Some navPath => Some navPath
      | None =>
          match List.find (fun kv => suffixMatch url (fst kv)) order with
          | Some kv => Some (snd kv)
          | None => None
          end
      end
  end.

Record helpFile := {
  hf_navPath : string;
  hf_relFile : string;
  hf_title : string;
  hf_keywords : string;
  hf_content : string
}.

(** What [findHelpFile] returns for the first candidate it can read. *)
Definition mkHelpFile (url repoRoot candidate raw : string) : helpFile :=
  let relFile := default EmptyString (Filepath.Rel repoRoot candidate) in
  let navPath := buildNavPath url in
  let '(title, keywords, content) := extractTitleAndClean raw in
  let title :=
    if String.eqb title EmptyString
    then List.last (Strings.Split url "/") EmptyString else title in
  {| hf_navPath := navPath; hf_relFile := relFile; hf_title := title;
     hf_keywords := keywords; hf_content := content |}.

(** The loop over the candidates; the first component of the result lists
    the files the loop tried to read. *)
Fixpoint tryCandidates (E : Env) (url repoRoot : string) (candidates : list string)
  : list string * option helpFile :=
  match candidates with
  | [] => ([], None)
  | candidate :: more =>
      match ReadFile E candidate with
      | None =>
          let '(tried, r) := tryCandidates E url repoRoot more in
          (candidate :: tried, r)
      | Some raw => ([candidate], Some (mkHelpFile url repoRoot candidate raw))
      end
  end.

Definition findHelpFile (E : Env) (url repoRoot : string)
  : list string * option helpFile :=
  match Strings.SplitN url "/" 2 with
  | subsite :: rest :: _ =>
      tryCandidates E url repoRoot
        [Filepath.Join [repoRoot; subsite; "docs"; rest +:+ ".md"];
         Filepath.Join [repoRoot; subsite; "docs"; rest; "index.md"]]
  | _ => ([], None)
  end.

(** ** The run *)

Definition buildIndex (docs : list docEntry) : gmap string string :=
  foldl (fun idx d => <[normalizeFilePath (file d) := path d]> idx) ∅ docs.

Record recovery := Recovery {
  r_table : list docEntry;
  r_index : gmap string string;
  r_added : nat;
  r_tick : nat             (* how many map iterations the run has started *)
}.

Definition disambiguation (f : helpFile) : docEntry :=
  {| path := hf_navPath f; file := hf_relFile f; title := hf_title f;
     keywords := hf_keywords f; content := hf_content f; exclude := true |}.

(** One round of the first pass over the help URLs. *)
Definition recover (E : Env) (r : recovery) (e : helpURLEntry) : recovery :=
  let order := rangeOrder E (r_tick r) (r_index r) in
  match matchHelpURL (url e) (r_index r) order with
  | Some _ => Recovery (r_table r) (r_index r) (r_added r) (S (r_tick r))
  | None =>
      match snd (findHelpFile E (url e) (tmpDir E)) with
      | None => Recovery (r_table r) (r_index r) (r_added r) (S (r_tick r))
      | Some f =>
          Recovery (insertDoc (r_table r) (disambiguation f))
                   (<[normalizeFilePath (hf_relFile f) := hf_navPath f]> (r_index r))
                   (S (r_added r)) (S (r_tick r))
      end
  end.

Record matching := Matching {
  m_table : list (string * string);
  m_matched : nat;
  m_tick : nat
}.

(** One round of the second pass. *)
Definition associate (E : Env) (fileIndex : gmap string string) (m : matching)
  (e : helpURLEntry) : matching :=
  match matchHelpURL (url e) fileIndex (rangeOrder E (m_tick m) fileIndex) with
  | Some navPath =>
      Matching (insertHelpURL (m_table m) (symbol e, navPath)) (S (m_matched m))
               (S (m_tick m))
  | None => Matching (m_table m) (m_matched m) (S (m_tick m))
  end.

Record database := {
  docs : list docEntry;                 (* table [docs] *)
  help_urls : list (string * string);   (* table [help_urls] *)
  found : nat;                          (* Found %d documents *)
  added : nat;                          (* Added %d disambiguation pages *)
  matched : nat;
  warnings : list warning
}.

Inductive outcome :=
| Fatal (e : error)          (* [log.Fatalf]: the run stops, nothing is written *)
| Wrote (db : database).

(** [main] from the parsing of the top-level [mkdocs.yml] on, for a cloned
    repository and a database that accepts every statement. *)
Definition main (E : Env) (fuel : nat) (helpURLs : string) : option outcome :=
  match parseMkdocs E (Filepath.Join [tmpDir E; "mkdocs.yml"]) with
  | inl err => Some (Fatal err)
  | inr cfg =>
      match walkNav E fuel (Nav cfg) (Filepath.Join [tmpDir E; docsDirOf cfg])
              (tmpDir E) nil_slice (State [] [] []) with
      | None => None
      | Some st =>
          let table := foldl insertDoc [] (out st) in
          let fileIndex := buildIndex (out st) in
          if String.eqb helpURLs EmptyString then
            Some (Wrote {| docs := table; help_urls := []; found := length (out st);
                           added := 0; matched := 0; warnings := logged st |})
          else
            match parseSymbolURLs E helpURLs with
            | inl err =>
                Some (Wrote {| docs := table; help_urls := [];
                               found := length (out st); added := 0; matched := 0;
                               warnings := logged st ++ [WarnHelpURLs err] |})
            | inr entries =>
                let r := foldl (recover E) (Recovery table fileIndex 0 0) entries in
                let m := foldl (associate E (r_index r)) (Matching [] 0 (r_tick r)) entries in
                Some (Wrote {| docs := r_table r; help_urls := m_table m;
                               found := length (out st); added := r_added r;
                               matched := m_matched m; warnings := logged st |})
            end
      end
  end.
(** [refines bc st r pr]: a step of the walker that started in [st] with the
    breadcrumb slice [bc] and ended as [r] stayed within the frame of [bc] and
    shows what the step [pr] on immutable breadcrumbs shows. *)
Definition refines (bc : slice) (st : state) (r : option state)
  (pr : option Pure.view) : Prop :=
  match r with
  | Some st' => frame bc (mem st) (mem st') /\ pr = Some (erase st')
  | None => pr = None
  end.

(** The navigation entries [- title: [children]] and [- file]. *)
Definition leaf (value : string) : Node := mkNode ScalarNode value [].
Definition entry (title : string) (val : Node) : Node :=
  mkNode MappingNode EmptyString [leaf title; val].
Definition section (title : string) (children : list Node) : Node :=
  entry title (mkNode SequenceNode EmptyString children).

(** A state from which the walk at the breadcrumb slice [bc], which holds
    [L], may go on. *)
Definition ready (bc : slice) (L : list string) (st : state) : Prop :=
  wf (mem st) bc /\ elems (mem st) bc = L.

(** ** The catalog *)

(** The [docs] table after the entries [ds] were inserted in this order. *)
Definition catalog (ds : list docEntry) : list docEntry := foldl insertDoc [] ds.

Definition samePath (d e : docEntry) : bool := String.eqb (path e) (path d).

(** ** Plain text *)

(** [lacks c s]: the byte [c] does not occur in [s]. *)
Fixpoint lacks (c : ascii) (s : string) : bool :=
  match s with
  | EmptyString => true
  | String d s' => negb (Ascii.eqb c d) && lacks c s'
  end.

(** Text without the byte that opens a tag. *)
Definition plain (s : string) : bool := lacks "<" s.

(** ** What the immutable walker shows *)

(** [join v0 v]: what [v] shows, after what [v0] shows. *)
Definition join (v0 v : Pure.view) : Pure.view :=
  Pure.View (Pure.v_out v0 ++ Pure.v_out v) (Pure.v_logged v0 ++ Pure.v_logged v).

Definition nothing : Pure.view := Pure.View [] [].

(** A step that only adds to what is shown, whatever was shown before. *)
Definition additive (step : Pure.view -> option Pure.view) : Prop :=
  forall v0 v, step (join v0 v) = option_map (join v0) (step v).

(** The nodes that are skipped with the warning [w]: a document that cannot
    be read, bare or under a title, and an inclusion whose configuration
    cannot be read or parsed. *)
Inductive skipped (E : Env) (docsDir repoRoot : string) : Node -> warning -> Prop :=
| skip_leaf md :
    Strings.HasSuffix md ".md" = true ->
    ReadFile E (Filepath.Join [docsDir; md]) = None ->
    skipped E docsDir repoRoot (leaf md)
      (WarnDoc md (ErrRead (Filepath.Join [docsDir; md])))
| skip_entry t md :
    isInclude md = false ->
    Strings.HasSuffix md ".md" = true ->
    ReadFile E (Filepath.Join [docsDir; md]) = None ->
    skipped E docsDir repoRoot (entry t (leaf md))
      (WarnDoc md (ErrRead (Filepath.Join [docsDir; md])))
| skip_include t value err :
    isInclude value = true ->
    parseMkdocs E (Filepath.Join [repoRoot; includePath value]) = inl err ->
    skipped E docsDir repoRoot (entry t (leaf value))
      (WarnInclude (includePath value) err).

(** ** Recovery of pages outside the navigation *)


(** ** A small world to run the program in *)

Fixpoint assoc {A : Type} (l : list (string * A)) (k : string) : option A :=
  match l with
  | [] => None
  | (k', v) :: l' => if String.eqb k' k then Some v else assoc l' k
  end.

(** A repository cloned at [root] with the given files; the parsers are
    tables from file contents to what they parse to; [append] doubles the
    capacity and [range] visits a map in the order of [map_to_list]. *)
Definition world (root : string) (files : list (string * string))
  (configs : list (string * mkdocsConfig)) (urls : list (string * list helpURLEntry))
  : Env :=
  {| tmpDir := root;
     ReadFile := assoc files;
     yamlUnmarshal := assoc configs;
     jsonUnmarshal := assoc urls;
     growslice := Nat.pred;
     rangeOrder := fun _ idx => map_to_list idx |}.

(** ** Induction over navigation nodes

    The principle for [Node], with the hypothesis for every node of the
    content. *)
Fixpoint Node_ind' (P : Node -> Prop)
  (step : forall k v c, Forall P c -> P (mkNode k v c)) (n : Node) {struct n} : P n :=
  match n with
  | mkNode k v c =>
      step k v c
        ((fix all (l : list Node) : Forall P l :=
            match l with
            | [] => List.Forall_nil P
            | x :: l' => @List.Forall_cons _ P x l' (Node_ind' P step x) (all l')
            end) c)
  end.


(** An index in which two keys end with [/x]. *)
Definition twoSuffixes : gmap string string := {[ "a/x" := "A"; "b/x" := "B" ]}.

(** A repository whose only file outside the navigation is
    [s/docs/a/index.md], and a help URL list that refers to it. *)
Definition emptyConfig : mkdocsConfig :=
  {| SiteName := "Docs"; DocsDir := EmptyString; Nav := [] |}.

Definition orphanWorld : Env :=
  world "/r"
    [("/r/mkdocs.yml", "top"); ("/r/s/docs/a/index.md", "text"); ("urls.json", "urls")]
    [("top", emptyConfig)]
    [("urls", [{| symbol := "sym"; url := "s/a/index" |}])].


(** A repository with a top-level site and one sub-site.  Two sections of
    the top-level navigation have the same titles, one document is missing,
    one entry is a link, and one inclusion points nowhere. *)
Definition topConfig : mkdocsConfig :=
  {| SiteName := "Top"; DocsDir := EmptyString;
     Nav := [leaf "index.md";
             section "S" [section "A" [leaf "a.md"]; section "B" [leaf "b.md"];
                          entry "C" (leaf "c.md"); entry "D" (leaf "http://x")];
             entry "Sub" (leaf "!include ./sub/mkdocs.yml");
             entry "Bad" (leaf "!include ./bad/mkdocs.yml");
             section "S" [section "A" [leaf "b.md"]]] |}.

Definition subConfig : mkdocsConfig :=
  {| SiteName := "Sub"; DocsDir := EmptyString;
     Nav := [leaf "index.md"; entry "X" (leaf "x/y.md")] |}.

Definition demoWorld : Env :=
  world "/r"
    [("/r/mkdocs.yml", "top"); ("/r/sub/mkdocs.yml", "sub");
     ("/r/docs/index.md", "# Home"); ("/r/docs/a.md", "no title");
     ("/r/docs/b.md", "# B"); ("/r/sub/docs/index.md", "<h1>Sub index</h1>");
     ("/r/sub/docs/x/y.md", "# Y"); ("/r/sub/docs/w.md", "# W");
     ("urls.json", "urls")]
    [("top", topConfig); ("sub", subConfig)]
    [("urls", [{| symbol := "y"; url := "sub/x/y" |};
               {| symbol := "w"; url := "sub/w" |};
               {| symbol := "q"; url := "y" |};
               {| symbol := "n"; url := "nope" |}])].

(** A document with front matter, a title, a hidden block and markup. *)
Definition demoDoc : string :=
  "---" +:+ NL +:+ "search: on" +:+ NL +:+ "---" +:+ NL +:+ NL
  +:+ "# Iota " +:+ NL
  +:+ "<div style='display: none'>  alpha beta </div>" +:+ NL
  +:+ "Index <strong>generator</strong><br/>".

(** A document in which cutting a hidden block and stripping the div tags
    put another hidden block together. *)
Definition splicedDoc : string := "<di<div>v style='display:none'>y</di</div>v>".

(** An index in which two keys end with [/x] and stand for the same page. *)
Definition sameTarget : gmap string string := {[ "a/x" := "P"; "b/x" := "P" ]}.

(** A breadcrumb [Guide] in a backing array with three spare slots, as
    [append] leaves them: every title appended below it is written in place. *)
Definition guideHeap : list (list string) := [["Guide"; "x"; "y"; "z"]].
Definition guideSlice : slice := Slice 0 1 4.

Definition twoSiblings : list Node :=
  [section "S" [section "A" [leaf "a.md"]; section "B" [leaf "b.md"]]].

(** Markup that the conversions turn into plain text. *)
Definition taggedDoc : string := "<h1>Title</h1><br/>a <strong>b</strong>".

(** Plain text around one hidden block. *)
Definition hiddenDoc : string := "intro <div style='display:none'>k1</div> outro".

(** ** Navigation without inclusions *)

Fixpoint forallbPair {A : Type} (f : A -> A -> bool) (l : list A) : bool :=
  match l with
  | key :: val :: l' => f key val && forallbPair f l'
  | _ => true
  end.

(** No entry at or below the node is an inclusion directive. *)
Fixpoint includeFree (node : Node) : bool :=
  match node with
  | mkNode MappingNode _ content =>
      forallbPair
        (fun _ val =>
           match val with
           | mkNode ScalarNode value _ => negb (isInclude value)
           | _ => includeFree val
           end)
        content
  | mkNode SequenceNode _ content => forallb includeFree content
  | _ => true
  end.

(** ** The conversions, one by one *)

(** The nine replacements of [convertMarkup], in the order they run. *)
Definition conversions : list (regex * (string -> string)) :=
  [(h1Re, fun g => "# " +:+ g);
   (h2Re, fun g => "## " +:+ g);
   (h3Re, fun g => "### " +:+ g);
   (spanRe, fun _ => EmptyString);
   (brRe, fun _ => NL);
   (kbdRe, fun g => "`" +:+ g +:+ "`");
   (supRe, fun g => g);
   (strongRe, fun g => "**" +:+ g +:+ "**");
   (divRe, fun _ => EmptyString)].

Definition convert (s : string) (c : regex * (string -> string)) : string :=
  ReplaceAllString (fst c) s (snd c).

(** [re] matches nowhere in [t]. *)
Definition unmatched (re : regex) (t : string) : bool :=
  match find re true t with
  | None => true
  | Some _ => false
  end.

(** No conversion finds anything to replace in [t]: no [h1], [h2], [h3],
    [kbd], [sup] or [strong] element on one line, and no [span], [br] or
    [div] tag. *)
Definition settled (t : string) : bool :=
  forallb (fun c => unmatched (fst c) t) conversions.

(** The bytes a match of the items is sure to take, and whether the items
    hold a capture group. *)
Fixpoint fixedLen (r : list item) : nat :=
  match r with
  | [] => 0
  | One _ :: r' => S (fixedLen r')
  | _ :: r' => fixedLen r'
  end.

Fixpoint captures (r : list item) : bool :=
  match r with
  | [] => false
  | Rep true _ _ _ :: _ => true
  | _ :: r' => captures r'
  end.

(** What is put for a match is shorter than the match. *)
Definition shrinks (c : regex * (string -> string)) : Prop :=
  forall b s g n, matchAt (fst c) b s = Some (g, n) -> String.length (snd c g) < n.

(** ** Exhaustive scans *)

(** [exhaustive re s hits tail]: going through [s] from left to right,
    [hits] are the matches of [re], each the first one that starts after
    the end of the one before, and no match starts in [tail], the text after
    the last of them. *)
Inductive exhaustive (re : regex) : string -> list hit -> string -> Prop :=
| exhaustive_nil s :
    (forall i b, matchAt re b (Strings.drop i s) = None) ->
    exhaustive re s [] s
| exhaustive_cons h rest hits tail :
    (forall i b, i < String.length (gap h) ->
       matchAt re b (Strings.drop i (gap h +:+ text h +:+ rest)) = None) ->
    (forall b, matchAt re b (text h +:+ rest) = Some (group h, String.length (text h))) ->
    exhaustive re rest hits tail ->
    exhaustive re (gap h +:+ text h +:+ rest) (h :: hits) tail.

(** ** Inclusions that nest *)

Section Nesting.
Variable E : Env.
Variable repoRoot : string.
(** What is asked of the navigation of an included site. *)
Variable below : list Node -> bool.

(** An inclusion directive is fine when its configuration cannot be read or
    parsed (the walker warns and goes on), or when the navigation it holds
    is fine. *)
Definition includeOk (value : string) : bool :=
  match parseMkdocs E (Filepath.Join [repoRoot; includePath value]) with
  | inl _ => true
  | inr cfg => below (Nav cfg)
  end.

Fixpoint nestsNode (node : Node) : bool :=
  match node with
  | mkNode MappingNode _ content =>
      forallbPair
        (fun _ val =>
           match val with
           | mkNode ScalarNode value _ =>
               if isInclude value then includeOk value else true
           | _ => nestsNode val
           end)
        content
  | mkNode SequenceNode _ content => forallb nestsNode content
  | _ => true
  end.
End Nesting.

(** [nests E repoRoot n nodes]: the sites included from [nodes] include
    further sites at most [n] levels deep. *)
Fixpoint nests (E : Env) (repoRoot : string) (n : nat) (nodes : list Node) : bool :=
  match n with
  | O => forallb (nestsNode E repoRoot (fun _ => false)) nodes
  | S n' => forallb (nestsNode E repoRoot (nests E repoRoot n')) nodes
  end.

(** A repository whose top-level configuration includes itself. *)
Definition loopConfig : mkdocsConfig :=
  {| SiteName := "Loop"; DocsDir := EmptyString;
     Nav := [leaf "index.md"; entry "Again" (leaf "!include ./mkdocs.yml")] |}.

Definition loopWorld : Env :=
  world "/r" [("/r/mkdocs.yml", "loop"); ("/r/docs/index.md", "# Home")]
    [("loop", loopConfig)] [].

(** A document with a table, a link and a bare [<], and no tag that the
    conversions replace. *)
Definition tableDoc : string :=
  "| a | b |" +:+ NL +:+ "|---|---|" +:+ NL
  +:+ "see [x](y.md) and <a href='z'>z</a> when 1 < 2".

(** A hidden block in front of a link. *)
Definition linkedDoc : string :=
  "intro <div style='display:none'>k1</div> <a href='x'>outro</a>".


(** * Induction over pairs of list elements *)

Lemma pair_ind {A} (P : list A -> Prop) :
  P [] -> (forall x, P [x]) -> (forall k v l, P l -> P (k :: v :: l)) ->
  forall l, P l.
Proof.
  intros H0 H1 H2.
  assert (H : forall l, P l /\ forall x, P (x :: l)).
  { induction l as [|y l [IH1 IH2]]; split; auto. }
  intros l. apply H.
Qed.

(** * Slices and the heap *)

Lemma frame_refl s h : frame s h h.
Proof. intros a arr Ha. exists arr. auto. Qed.

Lemma frame_length s h h' : frame s h h' -> length h <= length h'.
Proof.
  intros F. destruct (decide (length h <= length h')) as [|Hn]; [done|].
  assert (Hlt : length h' < length h) by lia.
  destruct (lookup_lt_is_Some_2 h (length h') Hlt) as [arr Ha].
  destruct (F _ _ Ha) as (arr' & Ha' & _).
  apply lookup_lt_Some in Ha'. lia.
Qed.

(** A callee that works on an extension [p] of [s] stays within the frame
    of [s]. *)
Lemma frame_narrow s p h h1 h2 :
  frame s h h1 -> frame p h1 h2 ->
  (ptr p = ptr s /\ len s <= len p) \/ length h <= ptr p ->
  frame s h h2.
Proof.
  intros F1 F2 Hrel a arr Ha.
  destruct (F1 _ _ Ha) as (arr1 & Ha1 & Hl1 & Hs1).
  destruct (F2 _ _ Ha1) as (arr2 & Ha2 & Hl2 & Hs2).
  exists arr2. split; [done|]. split; [congruence|].
  intros i Hi. rewrite <- Hs1 by done. apply Hs2.
  apply lookup_lt_Some in Ha.
  destruct Hrel as [[Hp Hle]|Hfresh]; [|left; lia].
  destruct Hi as [Hne|Hlt]; [left; congruence | right; lia].
Qed.

Lemma frame_trans s h h1 h2 : frame s h h1 -> frame s h1 h2 -> frame s h h2.
Proof. intros F1 F2. eapply frame_narrow; eauto. Qed.

Lemma frame_wf s h h' : frame s h h' -> wf h s -> wf h' s.
Proof.
  intros F [Hle Harr]. split; [done|].
  intros Hc. destruct (Harr Hc) as (arr & Ha & Hl).
  destruct (F _ _ Ha) as (arr' & Ha' & Hl' & _). exists arr'. split; [done|congruence].
Qed.

Lemma frame_elems s h h' : frame s h h' -> wf h s -> elems h' s = elems h s.
Proof.
  intros F [Hle Harr]. unfold elems, array.
  destruct (decide (cap s = 0)) as [Hz|Hnz].
  { replace (len s) with 0 by lia. done. }
  destruct Harr as (arr & Ha & Hl); [lia|].
  destruct (F _ _ Ha) as (arr' & Ha' & Hl' & Hs).
  rewrite Ha, Ha'. simpl. apply list_eq. intros i.
  destruct (decide (i < len s)) as [Hi|Hi].
  - rewrite !lookup_take_lt by done. apply Hs. by right.
  - rewrite !lookup_take_ge by lia. done.
Qed.

Lemma elems_length h s : wf h s -> length (elems h s) = len s.
Proof.
  intros [Hle Harr]. unfold elems, array.
  destruct (decide (cap s = 0)) as [Hz|Hnz].
  { replace (len s) with 0 by lia. done. }
  destruct Harr as (arr & Ha & Hl); [lia|]. rewrite Ha. simpl.
  rewrite length_take. lia.
Qed.

Lemma append_spec E h s x h1 p :
  wf h s -> append E h s x = (h1, p) ->
  wf h1 p /\ elems h1 p = elems h s ++ [x] /\ frame s h h1 /\
  ((ptr p = ptr s /\ len s <= len p) \/ length h <= ptr p).
Proof.
  intros Hwf Happ. pose proof (elems_length h s Hwf) as Hlen.
  destruct Hwf as [Hle Harr]. unfold append in Happ.
  destruct (Nat.ltb_spec (len s) (cap s)) as [Hlt|Hge].
  - destruct Harr as (arr & Ha & Hl); [lia|].
    injection Happ as <- <-. unfold array. rewrite Ha. simpl.
    assert (Hp : ptr s < length h) by (by eapply lookup_lt_Some).
    repeat split; simpl.
    + lia.
    + intros _. exists (<[len s := x]> arr).
      rewrite list_lookup_insert_eq by done. by rewrite length_insert.
    + unfold elems, array. simpl. rewrite list_lookup_insert_eq by done.
      rewrite Ha. simpl.
      apply list_eq. intros i.
      destruct (decide (i < len s)) as [Hi|Hi].
      * rewrite lookup_take_lt by lia. rewrite lookup_app_l by (rewrite length_take; lia).
        rewrite lookup_take_lt by done. apply list_lookup_insert_ne. lia.
      * destruct (decide (i = len s)) as [->|Hne].
        -- rewrite lookup_take_lt by lia.
           rewrite list_lookup_insert_eq by lia.
           rewrite lookup_app_r by (rewrite length_take; lia).
           rewrite length_take. replace (len s - len s `min` length arr) with 0 by lia. done.
        -- rewrite lookup_take_ge by lia.
           symmetry. apply lookup_ge_None. rewrite length_app, length_take. simpl. lia.
    + intros a arr0 Ha0. destruct (decide (a = ptr s)) as [->|Hne].
      * assert (arr0 = arr) by congruence. subst arr0.
        exists (<[len s := x]> arr). rewrite list_lookup_insert_eq by done.
        rewrite length_insert. repeat split.
        intros i [Hi|Hi]; [done|]. apply list_lookup_insert_ne. lia.
      * exists arr0. rewrite list_lookup_insert_ne by done. auto.
    + left. lia.
  - injection Happ as <- <-. repeat split; simpl.
    + lia.
    + intros _. exists (elems h s ++ x :: replicate (growslice E (cap s)) EmptyString).
      split.
      * rewrite lookup_app_r by lia. by rewrite Nat.sub_diag.
      * rewrite length_app. simpl. rewrite length_replicate. lia.
    + unfold elems at 1, array. simpl.
      rewrite lookup_app_r by lia. rewrite Nat.sub_diag. simpl.
      rewrite <- Hlen at 1.
      change (elems h s ++ x :: replicate (growslice E (cap s)) EmptyString)
        with (elems h s ++ [x] ++ replicate (growslice E (cap s)) EmptyString).
      rewrite app_assoc.
      replace (S (length (elems h s))) with (length (elems h s ++ [x]))
        by (rewrite length_app; simpl; lia).
      apply take_app_length.
    + intros a arr0 Ha0. exists arr0.
      rewrite lookup_app_l by (by eapply lookup_lt_Some). auto.
    + right. lia.
Qed.


Lemma addDoc_erase E md dd rr bc st :
  erase (addDoc E md dd rr bc st)
  = Pure.addDoc E md dd rr (elems (mem st) bc) (erase st).
Proof.
  unfold addDoc, Pure.addDoc.
  destruct (negb _); [done|]. destruct (ReadFile E _); done.
Qed.

Lemma addDoc_mem E md dd rr bc st : mem (addDoc E md dd rr bc st) = mem st.
Proof.
  unfold addDoc. destruct (negb _); [done|]. destruct (ReadFile E _); done.
Qed.

Lemma addDoc_refines E md dd rr bc st :
  refines bc st (Some (addDoc E md dd rr bc st))
    (Some (Pure.addDoc E md dd rr (elems (mem st) bc) (erase st))).
Proof.
  simpl. rewrite addDoc_mem, addDoc_erase. split; [apply frame_refl | done].
Qed.

Section Loops.
Variables (bc : slice) (L : list string).

Lemma refines_step st r pr (k : state -> option state) (pk : Pure.view -> option Pure.view) :
  ready bc L st -> refines bc st r pr ->
  (forall st', ready bc L st' -> refines bc st' (k st') (pk (erase st'))) ->
  refines bc st (match r with Some st' => k st' | None => None end)
    (match pr with Some v => pk v | None => None end).
Proof.
  intros [Hwf Hel] Hr Hk. destruct r as [st1|]; simpl in Hr.
  - destruct Hr as [F ->].
    assert (R1 : ready bc L st1).
    { split; [by eapply frame_wf | by rewrite (frame_elems _ _ _ F)]. }
    specialize (Hk st1 R1). destruct (k st1) as [st2|]; simpl in *.
    + destruct Hk as [F2 ->]. split; [by eapply frame_trans | done].
    + done.
  - by rewrite Hr.
Qed.

Lemma each_refines (f : Node -> state -> option state)
  (g : Node -> Pure.view -> option Pure.view) (l : list Node) :
  Forall (fun n => forall st, ready bc L st -> refines bc st (f n st) (g n (erase st))) l ->
  forall st, ready bc L st -> refines bc st (each f l st) (each g l (erase st)).
Proof.
  induction 1 as [|n l Hn _ IH]; intros st R; simpl.
  - split; [apply frame_refl | done].
  - apply (refines_step st (f n st) (g n (erase st))); auto.
Qed.

Lemma eachPair_refines (f : Node -> Node -> state -> option state)
  (g : Node -> Node -> Pure.view -> option Pure.view) (l : list Node) :
  Forall (fun val => forall key st, ready bc L st ->
            refines bc st (f key val st) (g key val (erase st))) l ->
  forall st, ready bc L st -> refines bc st (eachPair f l st) (eachPair g l (erase st)).
Proof.
  induction l as [| x | key val l IH] using pair_ind; intros Hall st R; simpl.
  - split; [apply frame_refl | done].
  - split; [apply frame_refl | done].
  - inversion Hall as [|? ? _ Hall']; subst. inversion Hall' as [|? ? Hval Hall'']; subst.
    apply (refines_step st (f key val st) (g key val (erase st))); auto.
Qed.
End Loops.

(** Appending a title and walking on with the longer slice. *)
Lemma extend_refines E bc st t (k : slice -> state -> option state)
  (pk : list string -> Pure.view -> option Pure.view) :
  wf (mem st) bc ->
  (forall p st1, wf (mem st1) p ->
     refines p st1 (k p st1) (pk (elems (mem st1) p) (erase st1))) ->
  refines bc st
    (let '(h, p) := append E (mem st) bc t in k p (set_mem h st))
    (pk (elems (mem st) bc ++ [t]) (erase st)).
Proof.
  intros Hwf Hk. destruct (append E (mem st) bc t) as [h p] eqn:Happ.
  destruct (append_spec _ _ _ _ _ _ Hwf Happ) as (Hwfp & Hel & F & Hrel).
  specialize (Hk p (set_mem h st) Hwfp). simpl in Hk. rewrite Hel in Hk.
  change (erase (set_mem h st)) with (erase st) in Hk.
  destruct (k p (set_mem h st)) as [st2|]; simpl in *; [|done].
  destruct Hk as [F2 ->]. split; [|done]. by eapply frame_narrow.
Qed.

Section Refinement.
Variable E : Env.
Variable include : string -> string -> string -> slice -> state -> option state.
Variable pinclude :
  string -> string -> string -> list string -> Pure.view -> option Pure.view.
Hypothesis include_refines : forall value t rr bc st,
  wf (mem st) bc ->
  refines bc st (include value t rr bc st)
    (pinclude value t rr (elems (mem st) bc) (erase st)).

Lemma walkNavNode_refines node : forall dd rr bc st,
  wf (mem st) bc ->
  refines bc st (walkNavNode E include node dd rr bc st)
    (Pure.walkNavNode E pinclude node dd rr (elems (mem st) bc) (erase st)).
Proof.
  induction node as [k v c IH] using Node_ind'. intros dd rr bc st Hwf.
  destruct k; simpl; try (split; [apply frame_refl | done]).
  - (* a sequence *)
    apply each_refines with (L := elems (mem st) bc); [|done].
    eapply Forall_impl; [exact IH|]. intros n Hn st1 [Hwf1 <-]. by apply Hn.
  - (* a mapping *)
    apply eachPair_refines with (L := elems (mem st) bc); [|done].
    eapply Forall_impl; [exact IH|]. clear IH.
    intros val Hval key st1 [Hwf1 <-].
    destruct val as [vk vv vc]. destruct vk; try (split; [apply frame_refl | done]).
    + apply (extend_refines E bc st1 (node_Value key)
               (fun p => each (fun n => walkNavNode E include n dd rr p) vc)
               (fun l => each (fun n => Pure.walkNavNode E pinclude n dd rr l) vc));
        [done|].
      intros p st2 Hwf2. exact (Hval dd rr p st2 Hwf2).
    + apply (extend_refines E bc st1 (node_Value key)
               (fun p => walkNavNode E include (mkNode MappingNode vv vc) dd rr p)
               (fun l => Pure.walkNavNode E pinclude (mkNode MappingNode vv vc) dd rr l));
        [done|].
      intros p st2 Hwf2. exact (Hval dd rr p st2 Hwf2).
    + destruct (isInclude vv); [by apply include_refines|].
      apply (extend_refines E bc st1 (node_Value key)
               (fun p st => Some (addDoc E vv dd rr p st))
               (fun l v => Some (Pure.addDoc E vv dd rr l v))); [done|].
      intros p st2 _. apply addDoc_refines.
  - apply addDoc_refines.
Qed.

Lemma walkNodes_refines nodes dd rr bc st :
  wf (mem st) bc ->
  refines bc st (walkNodes E include nodes dd rr bc st)
    (Pure.walkNodes E pinclude nodes dd rr (elems (mem st) bc) (erase st)).
Proof.
  intros Hwf. apply each_refines with (L := elems (mem st) bc); [|done].
  apply Forall_forall. intros n _ st1 [Hwf1 <-]. by apply walkNavNode_refines.
Qed.
End Refinement.

Lemma handleInclude_refines E walk pwalk :
  (forall nodes dd rr bc st, wf (mem st) bc ->
     refines bc st (walk nodes dd rr bc st)
       (pwalk nodes dd rr (elems (mem st) bc) (erase st))) ->
  forall value t rr bc st, wf (mem st) bc ->
    refines bc st (handleInclude E walk value t rr bc st)
      (Pure.handleInclude E pwalk value t rr (elems (mem st) bc) (erase st)).
Proof.
  intros Hwalk value t rr bc st Hwf. unfold handleInclude, Pure.handleInclude.
  destruct (parseMkdocs E _) as [err|cfg].
  - split; [apply frame_refl | done].
  - apply (extend_refines E bc st t
             (fun p => walk (Nav cfg) _ rr p) (fun l => pwalk (Nav cfg) _ rr l)); [done|].
    intros p st1 Hwf1. by apply Hwalk.
Qed.

Lemma walkNav_refines E fuel : forall nodes dd rr bc st,
  wf (mem st) bc ->
  refines bc st (walkNav E fuel nodes dd rr bc st)
    (Pure.walkNav E fuel nodes dd rr (elems (mem st) bc) (erase st)).
Proof.
  induction fuel as [|f IH]; intros nodes dd rr bc st Hwf; simpl; [done|].
  apply walkNodes_refines; [|done]. by apply handleInclude_refines.
Qed.

Lemma walkNav_erase E fuel nodes dd rr bc st :
  wf (mem st) bc ->
  option_map erase (walkNav E fuel nodes dd rr bc st)
  = Pure.walkNav E fuel nodes dd rr (elems (mem st) bc) (erase st).
Proof.
  intros Hwf. pose proof (walkNav_refines E fuel nodes dd rr bc st Hwf) as R.
  destruct (walkNav E fuel nodes dd rr bc st); simpl in *; [by destruct R as [_ ->] | done].
Qed.


Lemma append_empty_inv (a b : string) : a +:+ b = EmptyString -> a = EmptyString /\ b = EmptyString.
Proof. destruct a; simpl; [done | discriminate]. Qed.

Lemma Join_two_nonempty (l : list string) (x y sep : string) :
  sep <> EmptyString -> Strings.Join (l ++ [x; y]) sep <> EmptyString.
Proof.
  intros Hsep. induction l as [|z l IH]; simpl.
  - intros H. apply append_empty_inv in H as [_ H].
    apply append_empty_inv in H as [H _]. done.
  - destruct (l ++ [x; y]) eqn:Hl; [by destruct l|].
    intros H. apply append_empty_inv in H as [_ H].
    apply append_empty_inv in H as [H _]. done.
Qed.

Lemma mkDoc_path md rel bcs raw :
  path (mkDoc md rel bcs raw)
  = if String.eqb (Strings.Join bcs " / ") EmptyString then md else Strings.Join bcs " / ".
Proof. unfold mkDoc. destruct (extractTitleAndClean raw) as [[? ?] ?]. done. Qed.

Lemma mkDoc_path_nested md rel l x y raw :
  path (mkDoc md rel (l ++ [x; y]) raw) = Strings.Join (l ++ [x; y]) " / ".
Proof.
  rewrite mkDoc_path.
  destruct (String.eqb_spec (Strings.Join (l ++ [x; y]) " / ") EmptyString) as [H|]; [|done].
  by apply Join_two_nonempty in H.
Qed.

Lemma Pure_addDoc_found E md dd rr bcs v raw :
  Strings.HasSuffix md ".md" = true ->
  ReadFile E (Filepath.Join [dd; md]) = Some raw ->
  Pure.addDoc E md dd rr bcs v
  = Pure.emit (mkDoc md (default EmptyString (Filepath.Rel rr (Filepath.Join [dd; md]))) bcs raw) v.
Proof. intros Hs Hr. unfold Pure.addDoc. by rewrite Hs, Hr. Qed.

Lemma two_siblings_pure E fuel dd rr L v s a b f1 f2 raw1 raw2 :
  Strings.HasSuffix f1 ".md" = true -> Strings.HasSuffix f2 ".md" = true ->
  ReadFile E (Filepath.Join [dd; f1]) = Some raw1 ->
  ReadFile E (Filepath.Join [dd; f2]) = Some raw2 ->
  exists d1 d2,
    Pure.walkNav E (S fuel) [section s [section a [leaf f1]; section b [leaf f2]]] dd rr L v
    = Some (Pure.View (Pure.v_out v ++ [d1; d2]) (Pure.v_logged v))
    /\ path d1 = Strings.Join (L ++ [s; a]) " / "
    /\ path d2 = Strings.Join (L ++ [s; b]) " / ".
Proof.
  intros Hs1 Hs2 Hr1 Hr2. eexists _, _. split.
  - cbn -[Pure.addDoc]. rewrite (Pure_addDoc_found _ _ _ _ _ _ _ Hs1 Hr1).
    rewrite (Pure_addDoc_found _ _ _ _ _ _ _ Hs2 Hr2).
    unfold Pure.emit. simpl. rewrite <- app_assoc. reflexivity.
  - rewrite <- !app_assoc. cbn [app]. rewrite !mkDoc_path_nested. done.
Qed.

(** C1 (breadcrumb isolation).  From a well-formed breadcrumb slice, the
    walker that appends to shared backing arrays shows exactly the entries
    and warnings of the walker whose breadcrumbs are immutable lists, for
    every list of nodes and every bound on inclusions (and it fails to
    return exactly when that one does): no branch sees what a sibling
    appended.  In particular a section with two sub-sections of one document
    each gives two paths that differ in the sibling title only. *)
Theorem walkNav_breadcrumb_isolation E fuel dd rr bc st :
  wf (mem st) bc ->
  (forall nodes,
     option_map erase (walkNav E fuel nodes dd rr bc st)
     = Pure.walkNav E fuel nodes dd rr (elems (mem st) bc) (erase st))
  /\ (forall s a b f1 f2 raw1 raw2,
        Strings.HasSuffix f1 ".md" = true -> Strings.HasSuffix f2 ".md" = true ->
        ReadFile E (Filepath.Join [dd; f1]) = Some raw1 ->
        ReadFile E (Filepath.Join [dd; f2]) = Some raw2 ->
        exists st',
          walkNav E (S fuel) [section s [section a [leaf f1]; section b [leaf f2]]]
            dd rr bc st = Some st'
          /\ map path (out st')
             = map path (out st)
               ++ [Strings.Join (elems (mem st) bc ++ [s; a]) " / ";
                   Strings.Join (elems (mem st) bc ++ [s; b]) " / "]).
Proof.
  intros Hwf. split.
  - intros nodes. by apply walkNav_erase.
  - intros s a b f1 f2 raw1 raw2 Hs1 Hs2 Hr1 Hr2.
    destruct (two_siblings_pure E fuel dd rr (elems (mem st) bc) (erase st)
                s a b f1 f2 raw1 raw2 Hs1 Hs2 Hr1 Hr2) as (d1 & d2 & Hp & Hd1 & Hd2).
    rewrite <- walkNav_erase in Hp by done.
    destruct (walkNav E (S fuel) _ dd rr bc st) as [st'|]; [|discriminate].
    exists st'. split; [done|]. simpl in Hp. injection Hp as Hout _.
    rewrite Hout, map_app. simpl. by rewrite Hd1, Hd2.
Qed.


(** * The docs table *)

Lemma hasPath_spec p table : hasPath p table = true <-> In p (map path table).
Proof.
  unfold hasPath. rewrite existsb_exists, in_map_iff. split.
  - intros (r & Hr & He). apply String.eqb_eq in He. eauto.
  - intros (r & He & Hr). exists r. split; [done|]. by apply String.eqb_eq.
Qed.

Lemma insertDoc_NoDup table d :
  NoDup (map path table) -> NoDup (map path (insertDoc table d)).
Proof.
  intros Hnd. unfold insertDoc. destruct (hasPath (path d) table) eqn:Hp; [done|].
  rewrite map_app. simpl. apply NoDup_app. split; [done|]. split.
  - intros p Hin Hin'. apply list_elem_of_In in Hin.
    apply list_elem_of_singleton in Hin'. subst p.
    apply hasPath_spec in Hin. congruence.
  - apply NoDup_singleton.
Qed.

Lemma foldl_insertDoc_NoDup ds : forall table,
  NoDup (map path table) -> NoDup (map path (foldl insertDoc table ds)).
Proof.
  induction ds as [|d ds IH]; intros table Hnd; simpl; [done|].
  apply IH. by apply insertDoc_NoDup.
Qed.

(** The rows of the table after inserting [ds]: those it had, and each
    entry of [ds] whose path is neither in the table nor earlier in [ds]. *)
Lemma foldl_insertDoc_In ds : forall table d,
  In d (foldl insertDoc table ds) <->
  In d table \/ (hasPath (path d) table = false /\ List.find (samePath d) ds = Some d).
Proof.
  induction ds as [|e ds IH]; intros table d; simpl.
  - split; [auto | intros [H|[_ H]]; [done | discriminate]].
  - rewrite IH. unfold insertDoc, samePath at 2.
    destruct (String.eqb_spec (path e) (path d)) as [Heq|Hne].
    + destruct (hasPath (path e) table) eqn:Hp.
      * rewrite <- Heq, Hp. split; [intros [H|[H _]]; [auto | discriminate] | intros [H|[H _]]; [auto | discriminate]].
      * split.
        -- intros [H|[H _]].
           ++ apply in_app_or in H as [H|[<-|[]]]; [auto | right; by rewrite Hp].
           ++ exfalso. unfold hasPath in H. rewrite existsb_app in H. simpl in H.
              rewrite <- Heq, String.eqb_refl, orb_true_r in H. discriminate.
        -- intros [H|[_ H]]; left; apply in_or_app; [auto | right; left; congruence].
    + destruct (hasPath (path e) table) eqn:Hp; [done|].
      split.
      * intros [H|[H1 H2]].
        -- apply in_app_or in H as [H|[<-|[]]]; [auto | done].
        -- right. split; [|done]. unfold hasPath in *. rewrite existsb_app in H1.
           by apply orb_false_elim in H1 as [H1 _].
      * intros [H|[H1 H2]]; [left; apply in_or_app; auto|].
        right. split; [|done]. unfold hasPath in *. rewrite existsb_app, H1. simpl.
        destruct (String.eqb_spec (path e) (path d)); [done|done].
Qed.

Lemma insertDoc_sublist ds : forall table pre,
  table `sublist_of` pre -> foldl insertDoc table ds `sublist_of` pre ++ ds.
Proof.
  induction ds as [|d ds IH]; intros table pre Hsub; simpl.
  - by rewrite app_nil_r.
  - replace (pre ++ d :: ds) with ((pre ++ [d]) ++ ds) by (by rewrite <- app_assoc).
    apply IH. unfold insertDoc. destruct (hasPath (path d) table).
    + by apply sublist_inserts_r.
    + by apply sublist_app.
Qed.

Lemma recover_step_table E r e :
  exists pages,
    r_table (recover E r e) = foldl insertDoc (r_table r) pages
    /\ Forall (fun d => exclude d = true) pages.
Proof.
  unfold recover. destruct (matchHelpURL _ _ _).
  { exists []. split; [done | apply Forall_nil_2]. }
  destruct (snd (findHelpFile E (url e) (tmpDir E))) as [f|].
  - exists [disambiguation f]. split; [done|]. by apply Forall_singleton.
  - exists []. split; [done | apply Forall_nil_2].
Qed.

Lemma recover_table E es : forall r,
  exists pages,
    r_table (foldl (recover E) r es) = foldl insertDoc (r_table r) pages
    /\ Forall (fun d => exclude d = true) pages.
Proof.
  induction es as [|e es IH]; intros r; simpl.
  - exists []. split; [done | apply Forall_nil_2].
  - destruct (IH (recover E r e)) as (pages & Ht & Hex).
    destruct (recover_step_table E r e) as (pages1 & Ht1 & Hex1).
    exists (pages1 ++ pages). rewrite foldl_app, <- Ht1. split; [done|].
    by apply Forall_app.
Qed.

Lemma main_docs E fuel helpURLs db :
  main E fuel helpURLs = Some (Wrote db) ->
  exists cfg st pages,
    parseMkdocs E (Filepath.Join [tmpDir E; "mkdocs.yml"]) = inr cfg
    /\ walkNav E fuel (Nav cfg) (Filepath.Join [tmpDir E; docsDirOf cfg]) (tmpDir E)
         nil_slice (State [] [] []) = Some st
    /\ docs db = catalog (out st ++ pages)
    /\ Forall (fun d => exclude d = true) pages.
Proof.
  unfold main. destruct (parseMkdocs E _) as [err|cfg] eqn:Hcfg; [discriminate|].
  destruct (walkNav E fuel _ _ _ _ _) as [st|] eqn:Hwalk; [|discriminate].
  intros H. exists cfg, st.
  destruct (String.eqb helpURLs EmptyString).
  { injection H as <-. exists []. rewrite app_nil_r.
    repeat split; try done; apply Forall_nil_2. }
  destruct (parseSymbolURLs E helpURLs) as [err|entries].
  { injection H as <-. exists []. rewrite app_nil_r.
    repeat split; try done; apply Forall_nil_2. }
  injection H as <-. simpl.
  destruct (recover_table E entries
              (Recovery (foldl insertDoc [] (out st)) (buildIndex (out st)) 0 0))
    as (pages & Ht & Hex).
  exists pages. unfold catalog. rewrite foldl_app. repeat split; done.
Qed.

(** C3 (path uniqueness, first wins).  The table filled by inserting
    entries in order has no two rows with the same path, keeps for every path
    the first entry that has it and drops the later ones, and keeps the
    order of the entries.  The [docs] table a run writes is that table for
    the entries of the walk followed by the recovered pages. *)
Theorem catalog_path_unique_first_wins :
  (forall ds : list docEntry,
     NoDup (map path (catalog ds))
     /\ (forall d, In d (catalog ds) <-> List.find (samePath d) ds = Some d)
     /\ catalog ds `sublist_of` ds)
  /\ (forall E fuel helpURLs db,
        main E fuel helpURLs = Some (Wrote db) ->
        NoDup (map path (docs db))
        /\ exists st pages,
             option_map out
               (match parseMkdocs E (Filepath.Join [tmpDir E; "mkdocs.yml"]) with
                | inr cfg => walkNav E fuel (Nav cfg)
                               (Filepath.Join [tmpDir E; docsDirOf cfg]) (tmpDir E)
                               nil_slice (State [] [] [])
                | inl _ => None
                end) = Some st
             /\ docs db = catalog (st ++ pages)).
Proof.
  split.
  - intros ds. split; [|split].
    + apply foldl_insertDoc_NoDup. constructor.
    + intros d. unfold catalog. rewrite foldl_insertDoc_In. simpl.
      split; [intros [[]|[_ H]]; done | auto].
    + apply (insertDoc_sublist ds [] []). done.
  - intros E fuel helpURLs db Hmain.
    destruct (main_docs _ _ _ _ Hmain) as (cfg & st & pages & Hcfg & Hwalk & Hdocs & _).
    split.
    + rewrite Hdocs. apply foldl_insertDoc_NoDup. constructor.
    + exists (out st), pages. rewrite Hcfg, Hwalk. done.
Qed.


(** * Matching *)

Lemma range_lookup (idx : gmap string string) order k v :
  Permutation order (map_to_list idx) -> In (k, v) order <-> idx !! k = Some v.
Proof.
  intros Hp. rewrite <- elem_of_map_to_list, <- list_elem_of_In. by rewrite Hp.
Qed.

(** What the scan of the third tier returns. *)
Lemma scan_spec url (idx : gmap string string) order :
  Permutation order (map_to_list idx) ->
  match List.find (fun kv => suffixMatch url (fst kv)) order with
  | Some kv => idx !! fst kv = Some (snd kv) /\ suffixMatch url (fst kv) = true
  | None => forall fp p, idx !! fp = Some p -> suffixMatch url fp = false
  end.
Proof.
  intros Hp. destruct (List.find _ order) as [[k v]|] eqn:Hf.
  - apply find_some in Hf as [Hin Hs]. split; [|done]. by apply (range_lookup idx order).
  - intros fp p Hl. apply (range_lookup idx order) in Hl; [|done].
    exact (find_none _ _ Hf (fp, p) Hl).
Qed.

Lemma matchHelpURL_tiers url (idx : gmap string string) order :
  Permutation order (map_to_list idx) ->
  match idx !! url with
  | Some p => matchHelpURL url idx order = Some p
  | None =>
      match idx !! (url +:+ "/index") with
      | Some p => matchHelpURL url idx order = Some p
      | None =>
          match matchHelpURL url idx order with
          | Some p => exists fp, idx !! fp = Some p
                                 /\ Strings.HasSuffix fp ("/" +:+ url) = true
          | None => forall fp p, idx !! fp = Some p -> suffixMatch url fp = false
          end
      end
  end.
Proof.
  intros Hp. unfold matchHelpURL.
  destruct (idx !! url) as [p|] eqn:H1; [done|].
  destruct (idx !! (url +:+ "/index")) as [p|] eqn:H2; [done|].
  pose proof (scan_spec url idx order Hp) as Hs.
  destruct (List.find _ order) as [[k v]|]; [|done].
  destruct Hs as [Hl Hm]. exists k. split; [done|].
  unfold suffixMatch in Hm. apply orb_true_iff in Hm as [Hm|Hm]; [done|].
  apply String.eqb_eq in Hm. simpl in *. congruence.
Qed.

Lemma hasSymbol_spec sym table : hasSymbol sym table = true <-> In sym (map fst table).
Proof.
  unfold hasSymbol. rewrite existsb_exists, in_map_iff. split.
  - intros (r & Hr & He). apply String.eqb_eq in He. eauto.
  - intros (r & He & Hr). exists r. split; [done|]. by apply String.eqb_eq.
Qed.

Lemma insertHelpURL_NoDup table r :
  NoDup (map fst table) -> NoDup (map fst (insertHelpURL table r)).
Proof.
  intros Hnd. unfold insertHelpURL. destruct (hasSymbol (fst r) table) eqn:Hp; [done|].
  rewrite map_app. simpl. apply NoDup_app. split; [done|]. split.
  - intros p Hin Hin'. apply list_elem_of_In in Hin.
    apply list_elem_of_singleton in Hin'. subst p.
    apply hasSymbol_spec in Hin. congruence.
  - apply NoDup_singleton.
Qed.

Lemma associate_NoDup E idx es : forall m,
  NoDup (map fst (m_table m)) ->
  NoDup (map fst (m_table (foldl (associate E idx) m es))).
Proof.
  induction es as [|e es IH]; intros m Hnd; simpl; [done|].
  apply IH. unfold associate. destruct (matchHelpURL _ _ _); [|done].
  simpl. by apply insertHelpURL_NoDup.
Qed.

(** Every row of the help table comes from an entry of the list that
    matched with this path. *)
Lemma associate_sound E idx es : forall m sym p,
  In (sym, p) (m_table (foldl (associate E idx) m es)) ->
  In (sym, p) (m_table m)
  \/ exists e k, In e es /\ symbol e = sym
                 /\ matchHelpURL (url e) idx (rangeOrder E k idx) = Some p.
Proof.
  induction es as [|e es IH]; intros m sym p Hin; simpl in *; [auto|].
  apply IH in Hin as [Hin|(e' & k & He' & Hs & Hm)]; [|right; eauto 8].
  unfold associate in Hin.
  destruct (matchHelpURL (url e) idx _) as [q|] eqn:Hq; [|auto].
  simpl in Hin. unfold insertHelpURL in Hin. simpl in Hin.
  destruct (hasSymbol (symbol e) (m_table m)); [auto|].
  apply in_app_or in Hin as [Hin|[Heq|[]]]; [auto|].
  injection Heq as <- <-. right. exists e, (m_tick m). auto.
Qed.

(** A row, once in the help table, stays. *)
Lemma associate_keeps E idx es : forall m row,
  In row (m_table m) -> In row (m_table (foldl (associate E idx) m es)).
Proof.
  induction es as [|e es IH]; intros m row Hin; simpl; [done|].
  apply IH. unfold associate. destruct (matchHelpURL _ _ _); [|done].
  simpl. unfold insertHelpURL. destruct (hasSymbol _ _); [done|].
  apply in_or_app. by left.
Qed.

Lemma associate_tick E idx es : forall m,
  m_tick (foldl (associate E idx) m es) = m_tick m + length es.
Proof.
  induction es as [|e es IH]; intros m; simpl; [lia|].
  rewrite IH. unfold associate. destruct (matchHelpURL _ _ _); simpl; lia.
Qed.

Lemma associate_counts E idx es : forall m,
  length (m_table m) <= m_matched m ->
  let m' := foldl (associate E idx) m es in
  length (m_table m') <= m_matched m' /\ m_matched m' <= m_matched m + length es.
Proof.
  induction es as [|e es IH]; intros m Hm; simpl; [lia|].
  assert (Hstep : length (m_table (associate E idx m e)) <= m_matched (associate E idx m e)
                  /\ m_matched (associate E idx m e) <= S (m_matched m)).
  { unfold associate. destruct (matchHelpURL _ _ _); simpl; [|lia].
    unfold insertHelpURL. destruct (hasSymbol _ _); [lia|].
    rewrite length_app. simpl. lia. }
  destruct Hstep as [H1 H2]. destruct (IH _ H1) as [H3 H4]. simpl in H3, H4. lia.
Qed.

(** An entry that matches gets its symbol a row: its own, unless an
    earlier entry with the same symbol matched. *)
Lemma associate_complete E idx pre e post p : forall m,
  matchHelpURL (url e) idx (rangeOrder E (m_tick m + length pre) idx) = Some p ->
  let m' := foldl (associate E idx) m (pre ++ e :: post) in
  (exists p', In (symbol e, p') (m_table m'))
  /\ ((forall p', ~ In (symbol e, p') (m_table m)) ->
      (forall e' k, In e' pre -> symbol e' = symbol e ->
         matchHelpURL (url e') idx (rangeOrder E k idx) = None) ->
      In (symbol e, p) (m_table m')).
Proof.
  intros m Hm m'. subst m'. rewrite foldl_app. simpl.
  set (m1 := foldl (associate E idx) m pre).
  assert (Htick : m_tick m1 = m_tick m + length pre) by apply associate_tick.
  unfold associate at 2 4. rewrite Htick, Hm. unfold insertHelpURL. simpl.
  destruct (hasSymbol (symbol e) (m_table m1)) eqn:Hs.
  - apply hasSymbol_spec in Hs. apply in_map_iff in Hs as ([sym q] & Hsym & Hin).
    simpl in Hsym. subst sym. split.
    + exists q. by apply associate_keeps.
    + intros Hfresh Hpre. exfalso.
      apply associate_sound in Hin as [Hin|(e' & k & He' & Hsym & Hq)].
      * by apply (Hfresh q).
      * by rewrite (Hpre e' k He' Hsym) in Hq.
  - assert (Hin : In (symbol e, p) (m_table m1 ++ [(symbol e, p)])).
    { apply in_or_app. right. by left. }
    split; [exists p|intros _ _]; by apply associate_keeps.
Qed.

(** C6 (three-tier matching).  Whatever the order of the map iteration:
    an exact hit in the index decides; otherwise a hit for the path followed
    by [/index] decides; otherwise the result is the page of some key that
    ends with [/] and the path, and there is no result exactly when no key
    qualifies.  The help table gets at most one row per symbol, each from an
    entry that matched, and none for an entry that did not; every entry that
    matches gets its symbol a row, with the page it matched unless an earlier
    entry with the same symbol matched; the table that [main] writes is the
    one the second pass over the entries makes.  An index with
    lang/primitives/index-generator matches that path exactly, and
    primitives/index-generator by the scan. *)
Theorem matchHelpURL_three_tiers :
  (forall url (idx : gmap string string) order,
     Permutation order (map_to_list idx) ->
     match idx !! url with
     | Some p => matchHelpURL url idx order = Some p
     | None =>
         match idx !! (url +:+ "/index") with
         | Some p => matchHelpURL url idx order = Some p
         | None =>
             match matchHelpURL url idx order with
             | Some p => exists fp, idx !! fp = Some p
                                    /\ Strings.HasSuffix fp ("/" +:+ url) = true
             | None => forall fp p, idx !! fp = Some p -> suffixMatch url fp = false
             end
         end
     end)
  /\ (forall E (idx : gmap string string) entries tick,
        let m := foldl (associate E idx) (Matching [] 0 tick) entries in
        NoDup (map fst (m_table m))
        /\ forall sym p, In (sym, p) (m_table m) ->
             exists e k, In e entries /\ symbol e = sym
                         /\ matchHelpURL (url e) idx (rangeOrder E k idx) = Some p)
  /\ (forall E (idx : gmap string string) m e,
        matchHelpURL (url e) idx (rangeOrder E (m_tick m) idx) = None ->
        m_table (associate E idx m e) = m_table m)
  /\ (forall (idx : gmap string string) order p,
        Permutation order (map_to_list idx) ->
        idx !! "lang/primitives/index-generator" = Some p ->
        matchHelpURL "lang/primitives/index-generator" idx order = Some p
        /\ is_Some (matchHelpURL "primitives/index-generator" idx order))
  /\ (forall order p,
        Permutation order (map_to_list ({[ "lang/primitives/index-generator" := p ]} : gmap string string)) ->
        matchHelpURL "primitives/index-generator"
          {[ "lang/primitives/index-generator" := p ]} order = Some p)
  /\ (forall E (idx : gmap string string) pre e post tick p,
        matchHelpURL (url e) idx (rangeOrder E (tick + length pre) idx) = Some p ->
        let m := foldl (associate E idx) (Matching [] 0 tick) (pre ++ e :: post) in
        (exists p', In (symbol e, p') (m_table m))
        /\ ((forall e' k, In e' pre -> symbol e' = symbol e ->
               matchHelpURL (url e') idx (rangeOrder E k idx) = None) ->
            In (symbol e, p) (m_table m))
        /\ length (m_table m) <= m_matched m <= length (pre ++ e :: post))
  /\ (forall E fuel helpURLs db entries,
        main E fuel helpURLs = Some (Wrote db) ->
        helpURLs <> EmptyString ->
        parseSymbolURLs E helpURLs = inr entries ->
        exists cfg st,
          parseMkdocs E (Filepath.Join [tmpDir E; "mkdocs.yml"]) = inr cfg
          /\ walkNav E fuel (Nav cfg) (Filepath.Join [tmpDir E; docsDirOf cfg])
               (tmpDir E) nil_slice (State [] [] []) = Some st
          /\ let r := foldl (recover E)
                        (Recovery (foldl insertDoc [] (out st)) (buildIndex (out st)) 0 0)
                        entries in
             let m := foldl (associate E (r_index r)) (Matching [] 0 (r_tick r)) entries in
             help_urls db = m_table m /\ matched db = m_matched m).
Proof.
  split; [exact matchHelpURL_tiers|]. split; [|split; [|split; [|split; [|split]]]].
  - intros E idx entries tick m. split.
    + apply associate_NoDup. constructor.
    + intros sym p Hin. apply associate_sound in Hin as [[]|H]. done.
  - intros E idx m e Hm. unfold associate. by rewrite Hm.
  - intros idx order p Hp Hl. split.
    + pose proof (matchHelpURL_tiers "lang/primitives/index-generator" idx order Hp) as T.
      by rewrite Hl in T.
    + pose proof (matchHelpURL_tiers "primitives/index-generator" idx order Hp) as T.
      destruct (idx !! "primitives/index-generator"); [by rewrite T|].
      destruct (idx !! ("primitives/index-generator" +:+ "/index")); [by rewrite T|].
      destruct (matchHelpURL _ idx order); [done|].
      specialize (T _ _ Hl). discriminate T.
  - intros order p Hp.
    pose proof (matchHelpURL_tiers "primitives/index-generator" _ order Hp) as T.
    rewrite !lookup_singleton_ne in T by done.
    destruct (matchHelpURL _ _ order) as [q|].
    + destruct T as (fp & Hl & _). apply lookup_singleton_Some in Hl as [_ ->]. done.
    + specialize (T "lang/primitives/index-generator" p (lookup_singleton_eq _ _)).
      discriminate T.
  - intros E idx pre e post tick p Hm m.
    destruct (associate_complete E idx pre e post p (Matching [] 0 tick) Hm) as [H1 H2].
    split; [exact H1|]. split.
    + intros Hpre. apply H2; [|exact Hpre]. intros p' [].
    + destruct (associate_counts E idx (pre ++ e :: post) (Matching [] 0 tick))
        as [H3 H4]; [simpl; lia|]. simpl in H4. subst m. lia.
  - intros E fuel helpURLs db entries Hmain Hne Hparse. unfold main in Hmain.
    destruct (parseMkdocs E _) as [err|cfg]; [done|].
    destruct (walkNav E fuel _ _ _ _ _) as [st|] eqn:Hw; [|done].
    exists cfg, st. split; [done|]. split; [done|].
    destruct (String.eqb helpURLs EmptyString) eqn:He.
    { apply String.eqb_eq in He. done. }
    rewrite Hparse in Hmain. injection Hmain as <-. done.
Qed.

(** * No tie-break in the third tier *)

(** Two iterations of the index [twoSuffixes], in the two possible orders,
    resolve the path x to two different pages. *)
Lemma suffix_scan_depends_on_order :
  Permutation [("a/x", "A"); ("b/x", "B")] (map_to_list twoSuffixes)
  /\ Permutation [("b/x", "B"); ("a/x", "A")] (map_to_list twoSuffixes)
  /\ matchHelpURL "x" twoSuffixes [("a/x", "A"); ("b/x", "B")] = Some "A"
  /\ matchHelpURL "x" twoSuffixes [("b/x", "B"); ("a/x", "A")] = Some "B".
Proof.
  assert (Hl : Permutation [("a/x", "A"); ("b/x", "B")] (map_to_list twoSuffixes)).
  { unfold twoSuffixes. rewrite map_to_list_insert by done.
    rewrite map_to_list_singleton. done. }
  split; [done|]. split; [rewrite <- Hl; apply perm_swap|].
  split; by vm_compute.
Qed.

(** C7 (suffix scan, amended).  Two iterations of the same index in any two
    orders give the same result for a path when all the keys that qualify in
    the scan stand for the same page (in particular when one key does). *)
Theorem suffix_scan_deterministic_when_unambiguous
  (idx : gmap string string) url o1 o2 :
  Permutation o1 (map_to_list idx) -> Permutation o2 (map_to_list idx) ->
  (forall fp1 p1 fp2 p2,
     idx !! fp1 = Some p1 -> idx !! fp2 = Some p2 ->
     suffixMatch url fp1 = true -> suffixMatch url fp2 = true -> p1 = p2) ->
  matchHelpURL url idx o1 = matchHelpURL url idx o2.
Proof.
  intros H1 H2 Hu. unfold matchHelpURL.
  destruct (idx !! url); [done|]. destruct (idx !! (url +:+ "/index")); [done|].
  pose proof (scan_spec url idx o1 H1) as S1.
  pose proof (scan_spec url idx o2 H2) as S2.
  destruct (List.find _ o1) as [[k1 v1]|], (List.find _ o2) as [[k2 v2]|]; simpl in *.
  - destruct S1, S2. f_equal. eauto.
  - destruct S1 as [Hl Hm]. rewrite (S2 _ _ Hl) in Hm. discriminate.
  - destruct S2 as [Hl Hm]. rewrite (S1 _ _ Hl) in Hm. discriminate.
  - done.
Qed.

(** * Single-segment reference paths *)

Lemma Index_lacks s c :
  lacks c s = true -> Strings.Index s (String c EmptyString) = None.
Proof.
  induction s as [|d s IH]; intros Hl; simpl; [done|].
  simpl in Hl. apply andb_true_iff in Hl as [Hd Hl].
  destruct (Ascii.eqb c d); [discriminate|]. by rewrite IH.
Qed.

Lemma SplitN_2_no_sep s sep : Strings.Index s sep = None -> Strings.SplitN s sep 2 = [s].
Proof.
  intros Hi. unfold Strings.SplitN.
  destruct (Nat.min 2 (String.length s + 1) - 1) as [|k]; simpl; [done|]. by rewrite Hi.
Qed.

(** C10 (single-segment reference paths).  For a reference path without
    [/], [findHelpFile] finds nothing and tries to read no file, whatever the
    repository holds, and the first pass leaves the table and the index as
    they are. *)
Theorem findHelpFile_single_segment E u repoRoot :
  lacks "/" u = true ->
  findHelpFile E u repoRoot = ([], None)
  /\ forall r e, url e = u ->
       r_table (recover E r e) = r_table r
       /\ r_index (recover E r e) = r_index r
       /\ r_added (recover E r e) = r_added r.
Proof.
  intros Hl.
  assert (Hf : forall root, findHelpFile E u root = ([], None)).
  { intros root. unfold findHelpFile. rewrite SplitN_2_no_sep; [done|].
    by apply Index_lacks. }
  split; [apply Hf|]. intros r e <-. unfold recover.
  destruct (matchHelpURL _ _ _); [done|]. by rewrite Hf.
Qed.


(** * Strings *)

Lemma append_cons c (a b : string) : String c a +:+ b = String c (a +:+ b).
Proof. reflexivity. Qed.

Lemma take_drop_string n s : Strings.take n s +:+ Strings.drop n s = s.
Proof.
  revert s. induction n as [|n IH]; intros [|c s]; simpl; try done.
  by rewrite append_cons, IH.
Qed.

Lemma drop_drop_string n m s : Strings.drop n (Strings.drop m s) = Strings.drop (m + n) s.
Proof.
  revert s. induction m as [|m IH]; intros [|c s]; simpl; try done. by destruct n.
Qed.

Lemma append_assoc_string (a b c : string) : (a +:+ b) +:+ c = a +:+ b +:+ c.
Proof. induction a as [|x a IH]; [done | by rewrite !append_cons, IH]. Qed.

Lemma append_nil_r_string (a : string) : a +:+ EmptyString = a.
Proof. induction a as [|x a IH]; [done | by rewrite append_cons, IH]. Qed.

Lemma length_append_string (a b : string) :
  String.length (a +:+ b) = String.length a + String.length b.
Proof. induction a as [|c a IH]; [done|]. rewrite append_cons. simpl. by rewrite IH. Qed.

(** * Scanning *)

Lemma find_lacks re c b s :
  bol re = false -> first re = ch c -> lacks c s = true -> find re b s = None.
Proof.
  intros Hb Hf. revert b. induction s as [|d s IH]; intros b Hl; simpl.
  - unfold matchAt. rewrite Hb. done.
  - simpl in Hl. apply andb_true_iff in Hl as [Hd Hl].
    unfold matchAt. rewrite Hb, Hf. simpl. unfold ch.
    destruct (Ascii.eqb c d); [discriminate|]. by rewrite IH.
Qed.

Lemma scan_lacks re c fuel b s :
  bol re = false -> first re = ch c -> lacks c s = true -> scan re fuel b s = ([], s).
Proof.
  intros Hb Hf Hl. destruct fuel; simpl; [done|]. by rewrite (find_lacks re c).
Qed.

Lemma ReplaceAllString_lacks re c s repl :
  bol re = false -> first re = ch c -> lacks c s = true ->
  ReplaceAllString re s repl = s.
Proof.
  intros Hb Hf Hl. unfold ReplaceAllString, allMatches.
  rewrite (scan_lacks re c) by done. reflexivity.
Qed.

Lemma convertMarkup_plain t : plain t = true -> convertMarkup t = t.
Proof.
  intros Hp. unfold convertMarkup.
  rewrite (ReplaceAllString_lacks h1Re "<" t) by done.
  rewrite (ReplaceAllString_lacks h2Re "<" t) by done.
  rewrite (ReplaceAllString_lacks h3Re "<" t) by done.
  rewrite (ReplaceAllString_lacks spanRe "<" t) by done.
  rewrite (ReplaceAllString_lacks brRe "<" t) by done.
  rewrite (ReplaceAllString_lacks kbdRe "<" t) by done.
  rewrite (ReplaceAllString_lacks supRe "<" t) by done.
  rewrite (ReplaceAllString_lacks strongRe "<" t) by done.
  by rewrite (ReplaceAllString_lacks divRe "<" t).
Qed.

(** Stripping the inner div tag leaves a div tag, which a second pass
    strips. *)
Lemma not_idempotent :
  convertMarkup "<di<div>v>" = "<div>"
  /\ convertMarkup (convertMarkup "<di<div>v>") = EmptyString
  /\ convertMarkup (convertMarkup "<di<div>v>") <> convertMarkup "<di<div>v>".
Proof. repeat split; by vm_compute. Qed.

(** The matches and the gaps between them make up the text. *)
Lemma scan_partition re fuel : forall b s hits tail,
  scan re fuel b s = (hits, tail) ->
  s = concat_strings (map (fun h => gap h +:+ text h) hits) +:+ tail.
Proof.
  induction fuel as [|f IH]; intros b s hits tail Hs; simpl in Hs.
  - by injection Hs as <- <-.
  - destruct (find re b s) as [[[off cap] n]|]; [|by injection Hs as <- <-].
    destruct (scan re f _ _) as [hits' tail'] eqn:Hrec.
    injection Hs as <- <-. simpl. apply IH in Hrec.
    rewrite !append_assoc_string, <- Hrec, <- drop_drop_string.
    by rewrite !take_drop_string.
Qed.

Lemma extractTitleAndClean_parts raw :
  let s := stripFrontMatter raw in
  let hits := fst (allMatches hiddenDivRe s) in
  let tail := snd (allMatches hiddenDivRe s) in
  s = concat_strings (map (fun h => gap h +:+ text h) hits) +:+ tail
  /\ extractTitleAndClean raw
     = (extractTitle s,
        Strings.Join (filter nonEmpty (map Strings.TrimSpace (map group hits))) " ",
        convertMarkup (concat_strings (map gap hits) +:+ tail)).
Proof.
  intros s hits tail. split.
  - apply (scan_partition hiddenDivRe (String.length s) true). subst hits tail.
    unfold allMatches. by destruct (scan hiddenDivRe _ true s).
  - unfold extractTitleAndClean, extractKeywords, removeHidden, FindAllStringSubmatch,
      ReplaceAllString. fold s. subst hits tail.
    destruct (allMatches hiddenDivRe s) as [hits tail]. simpl.
    rewrite (map_ext (fun h => gap h +:+ EmptyString) gap); [done|].
    intros h. apply append_nil_r_string.
Qed.

(** * Matches lie within the text *)

Lemma bump_Some r c n : bump r = Some (c, n) -> exists m, r = Some (c, m) /\ n = S m.
Proof. destruct r as [[c' m]|]; simpl; [|done]. intros H. injection H as <- <-. eauto. Qed.

Lemma or_else_Some {A} (a b : option A) x :
  match a with Some m => Some m | None => b end = Some x -> a = Some x \/ b = Some x.
Proof. destruct a; auto. Qed.

Lemma rep_le greedy least p next c :
  (forall m k t, next k t = Some (c, m) -> m <= String.length t) ->
  forall t k n, rep greedy least p next k t = Some (c, n) -> n <= String.length t.
Proof.
  intros Hnext.
  assert (Hstop : forall k t n,
            (if Nat.leb least k then next k t else None) = Some (c, n) ->
            n <= String.length t).
  { intros k t n. destruct (Nat.leb least k); [apply Hnext | done]. }
  induction t as [|d t IH]; intros k n H.
  - destruct greedy; simpl in H.
    + by apply Hstop in H.
    + apply or_else_Some in H as [H|H]; [by apply Hstop in H | done].
  - assert (Hmore : (if p d then bump (rep greedy least p next (S k) t) else None)
                    = Some (c, n) -> n <= S (String.length t)).
    { destruct (p d); [|done]. intros Hb. apply bump_Some in Hb as (m & Hm & ->).
      apply IH in Hm. lia. }
    destruct greedy; simpl in H; apply or_else_Some in H as [H|H];
      (by apply Hmore) || (by apply Hstop in H).
Qed.

Lemma matchHere_le r : forall s cap c n,
  matchHere r s cap = Some (c, n) -> n <= String.length s.
Proof.
  induction r as [|it r IH]; intros s cap c n H; simpl in H.
  - injection H as <- <-. lia.
  - destruct it as [p | p | capture greedy least p | ].
    + destruct s as [|d s]; [done|]. destruct (p d); [|done].
      apply bump_Some in H as (m & Hm & ->). apply IH in Hm. simpl. lia.
    + destruct s as [|d s]; [by apply IH in H|].
      destruct (p d); [|by apply IH in H].
      destruct (bump (matchHere r s cap)) as [m|] eqn:Hb; [|by apply IH in H].
      injection H as ->. apply bump_Some in Hb as (m & Hm & ->). apply IH in Hm.
      simpl. lia.
    + eapply rep_le; [|exact H]. intros m k t Hm. eapply IH. exact Hm.
    + destruct s as [|d s]; [by apply IH in H|].
      destruct (Ascii.eqb d nl); [by apply IH in H | done].
Qed.

Lemma length_drop_string n s : String.length (Strings.drop n s) = String.length s - n.
Proof. revert s. induction n as [|n IH]; intros [|c s]; simpl; done || lia. Qed.

Lemma length_take_string n s :
  n <= String.length s -> String.length (Strings.take n s) = n.
Proof.
  revert s. induction n as [|n IH]; intros [|c s]; simpl; try done; try lia.
  intros H. rewrite IH; lia.
Qed.

Lemma matchAt_bounds re b s c n :
  matchAt re b s = Some (c, n) -> 1 <= n <= String.length s.
Proof.
  unfold matchAt. destruct (bol re && negb b); [done|].
  destruct s as [|d s]; [done|]. destruct (first re d); [|done].
  intros H. apply bump_Some in H as (m & Hm & ->). apply matchHere_le in Hm. simpl. lia.
Qed.

(** What [find] returns is a match of the pattern at the offset, within the
    text. *)
Lemma find_spec re : forall s b off c n,
  find re b s = Some (off, c, n) ->
  1 <= n /\ off + n <= String.length s
  /\ exists b', matchAt re b' (Strings.drop off s) = Some (c, n).
Proof.
  induction s as [|d s IH]; intros b off c n H; simpl in H.
  - unfold matchAt in H. by destruct (bol re && negb b).
  - destruct (matchAt re b (String d s)) as [[c' n']|] eqn:Hm.
    + injection H as <- <- <-. pose proof (matchAt_bounds _ _ _ _ _ Hm) as [? ?].
      split; [done|]. split; [done|]. by exists b.
    + destruct (find re (Ascii.eqb d nl) s) as [[[off' c'] n']|] eqn:Hf; [|done].
      injection H as <- <- <-. apply IH in Hf as (? & ? & b' & Hb').
      split; [done|]. split; [simpl; lia|]. by exists b'.
Qed.

Lemma scan_S re f b s :
  scan re (S f) b s
  = match find re b s with
    | None => ([], s)
    | Some (off, cap, n) =>
        let m := Strings.take n (Strings.drop off s) in
        let '(hits, tail) :=
          scan re f (last_is_nl m false) (Strings.drop (off + n) s) in
        (Hit (Strings.take off s) m cap :: hits, tail)
    end.
Proof. reflexivity. Qed.

(** A bound of the length of the text is fuel enough for [scan]. *)
Lemma scan_fuel re : forall fuel s b,
  String.length s <= fuel -> scan re (S fuel) b s = scan re fuel b s.
Proof.
  induction fuel as [|f IH]; intros s b Hlen.
  - destruct s; [|simpl in Hlen; lia]. simpl. unfold matchAt.
    by destruct (bol re && negb b).
  - rewrite (scan_S re (S f)), (scan_S re f).
    destruct (find re b s) as [[[off c] n]|] eqn:Hf; [|done].
    apply find_spec in Hf as (Hn & Hoff & _). cbv zeta.
    rewrite IH; [done|]. rewrite length_drop_string. lia.
Qed.

Lemma scan_fuel_enough re s b : forall extra,
  scan re (String.length s + extra) b s = scan re (String.length s) b s.
Proof.
  induction extra as [|e IH]; [by rewrite Nat.add_0_r|].
  rewrite Nat.add_succ_r, scan_fuel; [done | lia].
Qed.

(** Every hit of a scan is a match of the pattern, with its capture. *)
Lemma scan_hits re fuel : forall b s hits tail,
  scan re fuel b s = (hits, tail) ->
  Forall (fun h => exists b' after,
            matchAt re b' (text h +:+ after) = Some (group h, String.length (text h)))
    hits.
Proof.
  induction fuel as [|f IH]; intros b s hits tail Hs; simpl in Hs.
  - injection Hs as <- <-. apply Forall_nil_2.
  - destruct (find re b s) as [[[off c] n]|] eqn:Hf.
    2:{ injection Hs as <- <-. apply Forall_nil_2. }
    destruct (scan re f _ _) as [hits' tail'] eqn:Hrec. injection Hs as <- <-.
    apply Forall_cons_2; [|by eapply IH].
    apply find_spec in Hf as (Hn & Hoff & b' & Hm). simpl.
    exists b', (Strings.drop n (Strings.drop off s)).
    rewrite take_drop_string, length_take_string; [done|].
    rewrite length_drop_string. lia.
Qed.


(** * What a match takes from the text *)

(** A repetition that succeeds stopped after some [j] bytes, where what
    follows it matched. *)
Lemma rep_inv greedy least p next c : forall t k n,
  rep greedy least p next k t = Some (c, n) ->
  exists j, j <= n /\ j <= String.length t
            /\ next (k + j) (Strings.drop j t) = Some (c, n - j).
Proof.
  assert (Hstop : forall k t n,
            (if Nat.leb least k then next k t else None) = Some (c, n) ->
            exists j, j <= n /\ j <= String.length t
                      /\ next (k + j) (Strings.drop j t) = Some (c, n - j)).
  { intros k t n H. destruct (Nat.leb least k); [|done]. exists 0.
    rewrite Nat.add_0_r, Nat.sub_0_r. repeat split; try lia. by destruct t. }
  induction t as [|d t IH]; intros k n H.
  - destruct greedy; simpl in H.
    + by apply Hstop in H.
    + apply or_else_Some in H as [H|H]; [by apply Hstop in H | done].
  - assert (Hmore : (if p d then bump (rep greedy least p next (S k) t) else None)
                    = Some (c, n) ->
                    exists j, j <= n /\ j <= String.length (String d t)
                      /\ next (k + j) (Strings.drop j (String d t)) = Some (c, n - j)).
    { destruct (p d); [|done]. intros Hb. apply bump_Some in Hb as (m & Hm & ->).
      apply IH in Hm as (j & Hj & Hlen & Hm). exists (S j).
      rewrite Nat.add_succ_r. simpl. repeat split; try lia. exact Hm. }
    destruct greedy; simpl in H; apply or_else_Some in H as [H|H];
      (by apply Hmore) || (by apply Hstop in H).
Qed.

Lemma length_take_le n s : String.length (Strings.take n s) <= n.
Proof. revert s. induction n as [|n IH]; intros [|c s]; simpl; try lia. specialize (IH s). lia. Qed.

(** A match takes the bytes of its single-byte items, and those of its
    capture group besides; without a group the capture is the one given. *)
Lemma matchHere_len r : forall s cap c n,
  matchHere r s cap = Some (c, n) ->
  fixedLen r <= n
  /\ (captures r = false -> c = cap)
  /\ (captures r = true -> String.length c + fixedLen r <= n).
Proof.
  induction r as [|it r IH]; intros s cap c n H; simpl in H.
  - injection H as <- <-. simpl. repeat split; done || lia.
  - destruct it as [p | p | capture greedy least p | ].
    + destruct s as [|d s]; [done|]. destruct (p d); [|done].
      apply bump_Some in H as (m & Hm & ->). apply IH in Hm as (HA & HB & HC).
      simpl. repeat split; [lia | done |]. intros Hc. specialize (HC Hc). lia.
    + assert (Hskip : forall s', matchHere r s' cap = Some (c, n) ->
                fixedLen (Opt p :: r) <= n
                /\ (captures (Opt p :: r) = false -> c = cap)
                /\ (captures (Opt p :: r) = true
                    -> String.length c + fixedLen (Opt p :: r) <= n)).
      { intros s' Hs. by apply IH in Hs. }
      destruct s as [|d s]; [by apply Hskip in H|].
      destruct (p d); [|by apply Hskip in H].
      destruct (bump (matchHere r s cap)) as [m|] eqn:Hb; [|by apply Hskip in H].
      injection H as ->. apply bump_Some in Hb as (m & Hm & ->).
      apply IH in Hm as (HA & HB & HC). simpl.
      repeat split; [lia | done |]. intros Hc. specialize (HC Hc). lia.
    + apply rep_inv in H as (j & Hj & Hlen & Hm). simpl in Hm.
      apply IH in Hm as (HA & HB & HC). simpl.
      destruct capture; simpl.
      * repeat split; [lia | done |]. intros _.
        destruct (captures r) eqn:Hc.
        -- specialize (HC eq_refl). lia.
        -- rewrite (HB eq_refl). pose proof (length_take_le j s). lia.
      * repeat split; [lia | done |]. intros Hc. specialize (HC Hc). lia.
    + assert (Hskip : forall s', matchHere r s' cap = Some (c, n) ->
                fixedLen (Eol :: r) <= n
                /\ (captures (Eol :: r) = false -> c = cap)
                /\ (captures (Eol :: r) = true
                    -> String.length c + fixedLen (Eol :: r) <= n)).
      { intros s' Hs. by apply IH in Hs. }
      destruct s as [|d s]; [by apply Hskip in H|].
      destruct (Ascii.eqb d nl); [by apply Hskip in H | done].
Qed.

Lemma matchAt_len re b s c n :
  matchAt re b s = Some (c, n) ->
  (captures (rest re) = false -> c = EmptyString /\ S (fixedLen (rest re)) <= n)
  /\ (captures (rest re) = true -> String.length c + S (fixedLen (rest re)) <= n).
Proof.
  unfold matchAt. destruct (bol re && negb b); [done|].
  destruct s as [|d s]; [done|]. destruct (first re d); [|done].
  intros H. apply bump_Some in H as (m & Hm & ->).
  apply matchHere_len in Hm as (HA & HB & HC). split.
  - intros Hc. split; [by apply HB | lia].
  - intros Hc. specialize (HC Hc). lia.
Qed.

(** * Replacements that shorten the text *)

Lemma conversions_shrink : Forall shrinks conversions.
Proof.
  unfold conversions.
  repeat (apply Forall_cons_2 || apply Forall_nil_2);
    intros b s g n H; apply matchAt_len in H as [H0 H1]; simpl in *;
    first [ specialize (H1 eq_refl); rewrite ?length_append_string; simpl in *; lia
          | destruct (H0 eq_refl) as [-> ?]; simpl; lia ].
Qed.

Lemma unmatched_replace re s repl :
  unmatched re s = true -> ReplaceAllString re s repl = s.
Proof.
  unfold unmatched, ReplaceAllString, allMatches. intros H.
  destruct (String.length s) as [|f]; [done|].
  rewrite scan_S. by destruct (find re true s).
Qed.

Lemma shrinks_hits c fuel b s hits tail :
  shrinks c -> scan (fst c) fuel b s = (hits, tail) ->
  String.length (concat_strings (map (fun h => gap h +:+ snd c (group h)) hits))
  + length hits
  <= String.length (concat_strings (map (fun h => gap h +:+ text h) hits)).
Proof.
  intros Hc Hs. apply scan_hits in Hs.
  induction Hs as [|h hits (b' & after & Hm) _ IH]; [done|].
  apply Hc in Hm. simpl. rewrite !length_append_string. lia.
Qed.

Lemma convert_length c s :
  shrinks c ->
  String.length (convert s c) <= String.length s
  /\ (unmatched (fst c) s = false -> String.length (convert s c) < String.length s).
Proof.
  intros Hc. unfold convert, ReplaceAllString, allMatches, unmatched.
  destruct (scan (fst c) (String.length s) true s) as [hits tail] eqn:Hs.
  pose proof (shrinks_hits _ _ _ _ _ _ Hc Hs) as Hlen.
  pose proof (scan_partition _ _ _ _ _ _ Hs) as Hpart.
  assert (Hle : String.length
                  (concat_strings (map (fun h => gap h +:+ snd c (group h)) hits) +:+ tail)
                + length hits <= String.length s).
  { rewrite Hpart. rewrite !length_append_string. lia. }
  split; [lia|].
  destruct (find (fst c) true s) as [[[off g] n]|] eqn:Hf; [|done]. intros _.
  pose proof (find_spec _ _ _ _ _ _ Hf) as (Hn & Hoff & _).
  destruct (String.length s) as [|f] eqn:Hl; [lia|].
  rewrite scan_S, Hf in Hs. cbv zeta in Hs.
  destruct (scan (fst c) f _ _) as [hits' tail']. injection Hs as <- <-.
  simpl in Hle. simpl. lia.
Qed.

Lemma convertMarkup_fold s : convertMarkup s = foldl convert s conversions.
Proof. reflexivity. Qed.

Lemma fold_settled l t :
  forallb (fun c => unmatched (fst c) t) l = true -> foldl convert t l = t.
Proof.
  induction l as [|c l IH]; [done|]. simpl. intros H.
  apply andb_true_iff in H as [Hc Hl]. unfold convert at 2.
  rewrite unmatched_replace by done. by apply IH.
Qed.

Lemma fold_le l : Forall shrinks l ->
  forall t, String.length (foldl convert t l) <= String.length t.
Proof.
  induction 1 as [|c l Hc _ IH]; intros t; [done|]. simpl.
  specialize (IH (convert t c)). pose proof (convert_length c t Hc) as [? _]. lia.
Qed.

Lemma fold_lt l : Forall shrinks l ->
  forall t, forallb (fun c => unmatched (fst c) t) l = false ->
    String.length (foldl convert t l) < String.length t.
Proof.
  induction 1 as [|c l Hc Hl IH]; intros t; [done|]. simpl.
  destruct (unmatched (fst c) t) eqn:Hu; simpl.
  - intros H. unfold convert at 2. rewrite unmatched_replace by done. by apply IH.
  - intros _. pose proof (convert_length c t Hc) as [_ Hlt].
    pose proof (fold_le l Hl (convert t c)). specialize (Hlt Hu). lia.
Qed.

Lemma convertMarkup_fixed t : convertMarkup t = t <-> settled t = true.
Proof.
  rewrite convertMarkup_fold. unfold settled. split.
  - intros Heq.
    destruct (forallb (fun c => unmatched (fst c) t) conversions) eqn:Hs; [done|].
    pose proof (fold_lt _ conversions_shrink t Hs) as Hlt. rewrite Heq in Hlt. lia.
  - apply fold_settled.
Qed.

Lemma plain_settled t : plain t = true -> settled t = true.
Proof.
  intros Hp. unfold settled, conversions, unmatched. simpl.
  by rewrite !(find_lacks _ "<" true t).
Qed.

(** C4 (idempotence of the conversions, amended).  Converting a second
    time changes nothing exactly when the converted text is settled: none of
    the nine patterns matches in it.  A conversion never makes the text
    longer and makes it shorter when its pattern matches, so a text that
    still holds something to convert cannot come out unchanged. *)
Theorem convertMarkup_idempotent_iff_settled :
  (forall s, convertMarkup (convertMarkup s) = convertMarkup s
             <-> settled (convertMarkup s) = true)
  /\ (forall t, convertMarkup t = t <-> settled t = true)
  /\ (forall t, String.length (convertMarkup t) <= String.length t)
  /\ (forall t, plain t = true -> settled t = true).
Proof.
  split; [intros s; apply convertMarkup_fixed|].
  split; [apply convertMarkup_fixed|].
  split; [|apply plain_settled].
  intros t. rewrite convertMarkup_fold. apply fold_le, conversions_shrink.
Qed.


Lemma join_nothing v : join v nothing = v.
Proof. destruct v. unfold join. simpl. by rewrite !app_nil_r. Qed.

Lemma join_assoc a b c : join (join a b) c = join a (join b c).
Proof. unfold join. simpl. by rewrite !app_assoc. Qed.

Lemma join_emit v0 v d : Pure.emit d (join v0 v) = join v0 (Pure.emit d v).
Proof. unfold join, Pure.emit. simpl. by rewrite app_assoc. Qed.

Lemma join_warn v0 v w : Pure.warn w (join v0 v) = join v0 (Pure.warn w v).
Proof. unfold join, Pure.warn. simpl. by rewrite app_assoc. Qed.

Lemma addDoc_additive E md dd rr L v0 v :
  Pure.addDoc E md dd rr L (join v0 v) = join v0 (Pure.addDoc E md dd rr L v).
Proof.
  unfold Pure.addDoc. destruct (negb _); [done|].
  destruct (ReadFile E _); [apply join_emit | apply join_warn].
Qed.

Lemma each_additive {A} (f : A -> Pure.view -> option Pure.view) l :
  Forall (fun x => additive (f x)) l -> additive (each f l).
Proof.
  induction 1 as [|x l Hx _ IH]; intros v0 v; simpl; [done|].
  rewrite (Hx v0 v). destruct (f x v) as [v1|]; simpl; [apply IH | done].
Qed.

Lemma eachPair_additive (f : Node -> Node -> Pure.view -> option Pure.view) l :
  Forall (fun val => forall key, additive (f key val)) l -> additive (eachPair f l).
Proof.
  induction l as [| x | key val l IH] using pair_ind; intros Hall v0 v; simpl; try done.
  inversion Hall as [|? ? _ Hall']; subst. inversion Hall' as [|? ? Hval Hall'']; subst.
  rewrite (Hval key v0 v). destruct (f key val v) as [v1|]; simpl; [by apply IH | done].
Qed.

Section Additive.
Variable E : Env.
Variable inc : string -> string -> string -> list string -> Pure.view -> option Pure.view.
Hypothesis inc_additive : forall value t rr L, additive (inc value t rr L).

Lemma walkNavNode_additive node : forall dd rr L,
  additive (Pure.walkNavNode E inc node dd rr L).
Proof.
  induction node as [k v c IH] using Node_ind'. intros dd rr L v0 v1.
  destruct k; simpl; try done.
  - apply each_additive. eapply Forall_impl; [exact IH|]. intros n Hn. apply Hn.
  - apply eachPair_additive. eapply Forall_impl; [exact IH|]. clear IH.
    intros val Hval key w0 w1. destruct val as [vk vv vc]. destruct vk; try done.
    + apply (Hval dd rr (L ++ [node_Value key])).
    + apply (Hval dd rr (L ++ [node_Value key])).
    + destruct (isInclude vv); [apply inc_additive|].
      simpl. by rewrite addDoc_additive.
  - by rewrite addDoc_additive.
Qed.
End Additive.

Lemma walkNav_additive E fuel : forall nodes dd rr L v0 v,
  Pure.walkNav E fuel nodes dd rr L (join v0 v)
  = option_map (join v0) (Pure.walkNav E fuel nodes dd rr L v).
Proof.
  induction fuel as [|f IH]; intros nodes dd rr L v0 v; simpl; [done|].
  unfold Pure.walkNodes. apply each_additive. apply Forall_forall. intros n _.
  apply walkNavNode_additive. intros value t rr' L' w0 w1.
  unfold Pure.handleInclude. destruct (parseMkdocs E _); simpl; [by rewrite join_warn|].
  apply IH.
Qed.

Lemma each_app {A S} (f : A -> S -> option S) l1 l2 st :
  each f (l1 ++ l2) st = match each f l1 st with
                         | Some st' => each f l2 st'
                         | None => None
                         end.
Proof.
  revert st. induction l1 as [|x l1 IH]; intros st; simpl; [done|].
  destruct (f x st); [apply IH | done].
Qed.

Lemma skipped_warns E fuel dd rr bad w L v :
  skipped E dd rr bad w ->
  Pure.walkNavNode E (Pure.handleInclude E (Pure.walkNav E fuel)) bad dd rr L v
  = Some (Pure.warn w v).
Proof.
  intros [md Hs Hr | t md Hi Hs Hr | t value err Hi Hp]; simpl.
  - unfold Pure.addDoc. by rewrite Hs, Hr.
  - rewrite Hi. unfold Pure.addDoc. by rewrite Hs, Hr.
  - rewrite Hi. unfold Pure.handleInclude. by rewrite Hp.
Qed.

(** Walking a list with a skipped node in it shows what walking the list
    without the node shows, and the warning. *)
Lemma Pure_walkNav_skip E fuel l1 bad l2 dd rr L v w :
  skipped E dd rr bad w ->
  match Pure.walkNav E fuel (l1 ++ l2) dd rr L v,
        Pure.walkNav E fuel (l1 ++ bad :: l2) dd rr L v with
  | Some a, Some b =>
      Pure.v_out b = Pure.v_out a
      /\ exists la lb, Pure.v_logged a = la ++ lb /\ Pure.v_logged b = la ++ w :: lb
  | None, None => True
  | _, _ => False
  end.
Proof.
  intros Hskip. destruct fuel as [|f]; simpl; [done|].
  unfold Pure.walkNodes. rewrite !each_app.
  destruct (each _ l1 v) as [v1|]; [|done]. simpl.
  rewrite (skipped_warns E f dd rr bad w L v1 Hskip).
  pose proof (walkNav_additive E (S f) l2 dd rr L v1 nothing) as H1.
  pose proof (walkNav_additive E (S f) l2 dd rr L (Pure.warn w v1) nothing) as H2.
  rewrite join_nothing in H1, H2. simpl in H1, H2. unfold Pure.walkNodes in H1, H2.
  rewrite H1, H2.
  destruct (each _ l2 nothing) as [d|]; simpl; [|done].
  split; [done|]. exists (Pure.v_logged v1), (Pure.v_logged d).
  split; [done|]. by rewrite <- app_assoc.
Qed.

Lemma main_fatal E fuel helpURLs e :
  main E fuel helpURLs = Some (Fatal e)
  <-> parseMkdocs E (Filepath.Join [tmpDir E; "mkdocs.yml"]) = inl e.
Proof.
  unfold main. destruct (parseMkdocs E _) as [err|cfg].
  - split; intros H; by injection H as ->.
  - split; [|discriminate]. destruct (walkNav E fuel _ _ _ _ _); [|discriminate].
    destruct (String.eqb _ _); [discriminate|].
    destruct (parseSymbolURLs E helpURLs); discriminate.
Qed.


(** * When the walker returns *)

Lemma each_total {A S} (f : A -> S -> option S) l :
  Forall (fun x => forall st, is_Some (f x st)) l -> forall st, is_Some (each f l st).
Proof.
  induction 1 as [|x l Hx _ IH]; intros st; simpl; [by eexists|].
  destruct (Hx st) as [st' ->]. apply IH.
Qed.

Lemma eachPair_total {A S} (f : A -> A -> S -> option S) (g : A -> A -> bool) l :
  Forall (fun val => forall key, g key val = true -> forall st, is_Some (f key val st)) l ->
  forallbPair g l = true -> forall st, is_Some (eachPair f l st).
Proof.
  induction l as [| x | key val l IH] using pair_ind; intros Hall Hg st; simpl;
    try by eexists.
  inversion Hall as [|? ? _ Hall']; subst. inversion Hall' as [|? ? Hval Hall'']; subst.
  simpl in Hg. apply andb_true_iff in Hg as [Hk Hl].
  destruct (Hval key Hk st) as [st' ->]. by apply IH.
Qed.

Lemma append_pair E h s x : exists h' p, append E h s x = (h', p).
Proof. destruct (append E h s x). eauto. Qed.

(** Without inclusions the walk returns, whatever the inclusion handler. *)
Lemma walkNavNode_total E include node :
  includeFree node = true ->
  forall dd rr bc st, is_Some (walkNavNode E include node dd rr bc st).
Proof.
  induction node as [k v c IH] using Node_ind'. intros Hfree dd rr bc st.
  destruct k; simpl in *; try by eexists.
  - apply each_total. apply Forall_forall. intros n Hn st1.
    rewrite Forall_forall in IH. apply IH; [done|].
    rewrite forallb_forall in Hfree. apply Hfree. by apply list_elem_of_In.
  - eapply eachPair_total; [|exact Hfree]. eapply Forall_impl; [exact IH|]. clear.
    intros val Hval key Hg st1. destruct val as [vk vv vc].
    destruct (append_pair E (mem st1) bc (node_Value key)) as (h & p & Happ).
    destruct vk; try by eexists.
    + rewrite Happ. apply (Hval Hg dd rr p).
    + rewrite Happ. apply (Hval Hg dd rr p).
    + apply negb_true_iff in Hg. rewrite Hg, Happ. by eexists.
Qed.

Lemma walkNav_total E fuel nodes dd rr bc st :
  forallb includeFree nodes = true ->
  is_Some (walkNav E (S fuel) nodes dd rr bc st).
Proof.
  intros Hfree. simpl. apply each_total. apply Forall_forall. intros n Hn st1.
  apply walkNavNode_total. rewrite forallb_forall in Hfree. apply Hfree.
  by apply list_elem_of_In.
Qed.

(** With inclusions that do not nest for ever the walk returns too: an
    inclusion whose configuration cannot be read or parsed is warned about,
    and the navigation of any other nests one level less. *)
Lemma walkNavNode_nests E inc below rr node :
  (forall value t bc st,
     includeOk E rr below value = true -> is_Some (inc value t rr bc st)) ->
  nestsNode E rr below node = true ->
  forall dd bc st, is_Some (walkNavNode E inc node dd rr bc st).
Proof.
  intros Hinc. induction node as [k v c IH] using Node_ind'. intros Hn dd bc st.
  destruct k; simpl in *; try by eexists.
  - apply each_total. apply Forall_forall. intros n Hin st1.
    rewrite Forall_forall in IH. apply IH; [done|].
    rewrite forallb_forall in Hn. apply Hn. by apply list_elem_of_In.
  - eapply eachPair_total; [|exact Hn]. eapply Forall_impl; [exact IH|]. clear -Hinc.
    intros val Hval key Hg st1. destruct val as [vk vv vc].
    destruct (append_pair E (mem st1) bc (node_Value key)) as (h & p & Happ).
    destruct vk; try by eexists.
    + rewrite Happ. apply (Hval Hg dd p).
    + rewrite Happ. apply (Hval Hg dd p).
    + destruct (isInclude vv); [by apply Hinc|]. rewrite Happ. by eexists.
Qed.

Lemma walkNav_nests E rr : forall n nodes dd bc st,
  nests E rr n nodes = true -> is_Some (walkNav E (S n) nodes dd rr bc st).
Proof.
  induction n as [|n IH]; intros nodes dd bc st Hn.
  - simpl in Hn. cbn [walkNav]. apply each_total. apply Forall_forall.
    intros node Hin st1.
    apply (walkNavNode_nests E _ (fun _ => false)).
    + intros value t bc1 st2 Hok. unfold includeOk in Hok. unfold handleInclude.
      destruct (parseMkdocs E _); [by eexists | done].
    + rewrite forallb_forall in Hn. apply Hn. by apply list_elem_of_In.
  - cbn [nests] in Hn. cbn [walkNav]. apply each_total. apply Forall_forall.
    intros node Hin st1.
    apply (walkNavNode_nests E _ (nests E rr n)).
    + intros value t bc1 st2 Hok. unfold includeOk in Hok. unfold handleInclude.
      destruct (parseMkdocs E _) as [err|cfg]; [by eexists|].
      destruct (append E (mem st2) bc1 t) as [h p]. by apply IH.
    + rewrite forallb_forall in Hn. apply Hn. by apply list_elem_of_In.
Qed.

Lemma includeFree_nestsNode E rr below node :
  includeFree node = true -> nestsNode E rr below node = true.
Proof.
  induction node as [k v c IH] using Node_ind'. intros Hfree.
  destruct k; simpl in *; try done.
  - rewrite forallb_forall in Hfree. apply forallb_forall. intros n Hin.
    rewrite Forall_forall in IH. apply IH; [by apply list_elem_of_In|]. by apply Hfree.
  - revert IH Hfree. clear. induction c as [| x | key val l IHl] using pair_ind;
      intros IH Hfree; simpl in *; try done.
    inversion IH as [|? ? _ IH']; subst. inversion IH' as [|? ? Hval IH'']; subst.
    apply andb_true_iff in Hfree as [Hv Hl]. apply andb_true_iff. split; [|by apply IHl].
    destruct val as [vk vv vc]. destruct vk; try by apply Hval.
    apply negb_true_iff in Hv. by rewrite Hv.
Qed.

(** * More fuel changes no result *)

Lemma each_mono {A S} (f g : A -> S -> option S) l :
  Forall (fun x => forall st st', f x st = Some st' -> g x st = Some st') l ->
  forall st st', each f l st = Some st' -> each g l st = Some st'.
Proof.
  induction 1 as [|x l Hx _ IH]; intros st st' H; simpl in *; [done|].
  destruct (f x st) as [st1|] eqn:Hf; [|done]. rewrite (Hx _ _ Hf). by apply IH.
Qed.

Lemma eachPair_mono {A S} (f g : A -> A -> S -> option S) l :
  Forall (fun val => forall key st st', f key val st = Some st' -> g key val st = Some st') l ->
  forall st st', eachPair f l st = Some st' -> eachPair g l st = Some st'.
Proof.
  induction l as [| x | key val l IH] using pair_ind; intros Hall st st' H; simpl in *;
    try done.
  inversion Hall as [|? ? _ Hall']; subst. inversion Hall' as [|? ? Hval Hall'']; subst.
  destruct (f key val st) as [st1|] eqn:Hf; [|done]. rewrite (Hval _ _ _ Hf). by apply IH.
Qed.

Section Monotone.
Variable E : Env.
Variables inc1 inc2 : string -> string -> string -> slice -> state -> option state.
Hypothesis inc_mono : forall value t rr bc st st',
  inc1 value t rr bc st = Some st' -> inc2 value t rr bc st = Some st'.

Lemma walkNavNode_mono node : forall dd rr bc st st',
  walkNavNode E inc1 node dd rr bc st = Some st' ->
  walkNavNode E inc2 node dd rr bc st = Some st'.
Proof.
  induction node as [k v c IH] using Node_ind'. intros dd rr bc st st'.
  destruct k; simpl; try done.
  - apply each_mono. eapply Forall_impl; [exact IH|]. intros n Hn. apply Hn.
  - apply eachPair_mono. eapply Forall_impl; [exact IH|]. clear IH.
    intros val Hval key st1 st1'. destruct val as [vk vv vc]. destruct vk; try done.
    + destruct (append E (mem st1) bc (node_Value key)) as [h p]. apply (Hval dd rr p).
    + destruct (append E (mem st1) bc (node_Value key)) as [h p]. apply (Hval dd rr p).
    + destruct (isInclude vv); [apply inc_mono | done].
Qed.
End Monotone.

Lemma walkNav_mono E fuel : forall nodes dd rr bc st st',
  walkNav E fuel nodes dd rr bc st = Some st' ->
  walkNav E (S fuel) nodes dd rr bc st = Some st'.
Proof.
  induction fuel as [|f IH]; intros nodes dd rr bc st st'; [done|].
  intros H. change (walkNodes E (handleInclude E (walkNav E f)) nodes dd rr bc st = Some st') in H.
  change (walkNodes E (handleInclude E (walkNav E (S f))) nodes dd rr bc st = Some st').
  revert H. unfold walkNodes. apply each_mono. apply Forall_forall. intros n _.
  apply walkNavNode_mono. intros value t rr' bc' st1 st1'. unfold handleInclude.
  destruct (parseMkdocs E _); [done|].
  destruct (append E (mem st1) bc' t) as [h p]. apply IH.
Qed.

Lemma main_mono E fuel helpURLs o :
  main E fuel helpURLs = Some o -> main E (S fuel) helpURLs = Some o.
Proof.
  unfold main. destruct (parseMkdocs E _) as [err|cfg]; [done|].
  destruct (walkNav E fuel _ _ _ _ _) as [st|] eqn:Hw; [|done].
  by rewrite (walkNav_mono _ _ _ _ _ _ _ _ Hw).
Qed.

Lemma main_total E fuel helpURLs cfg :
  parseMkdocs E (Filepath.Join [tmpDir E; "mkdocs.yml"]) = inr cfg ->
  forallb includeFree (Nav cfg) = true ->
  exists db, main E (S fuel) helpURLs = Some (Wrote db).
Proof.
  intros Hp Hfree. unfold main. rewrite Hp.
  destruct (walkNav_total E fuel (Nav cfg) (Filepath.Join [tmpDir E; docsDirOf cfg])
              (tmpDir E) nil_slice (State [] [] []) Hfree) as [st ->].
  destruct (String.eqb helpURLs EmptyString); [by eexists|].
  destruct (parseSymbolURLs E helpURLs); by eexists.
Qed.

Lemma main_nests E n helpURLs cfg :
  parseMkdocs E (Filepath.Join [tmpDir E; "mkdocs.yml"]) = inr cfg ->
  nests E (tmpDir E) n (Nav cfg) = true ->
  exists db, main E (S n) helpURLs = Some (Wrote db).
Proof.
  intros Hp Hn. unfold main. rewrite Hp.
  destruct (walkNav_nests E (tmpDir E) n (Nav cfg) (Filepath.Join [tmpDir E; docsDirOf cfg])
              nil_slice (State [] [] []) Hn) as [st ->].
  destruct (String.eqb helpURLs EmptyString); [by eexists|].
  destruct (parseSymbolURLs E helpURLs); by eexists.
Qed.

Lemma walkNav_skip E fuel l1 bad l2 dd rr bc st w :
  wf (mem st) bc -> skipped E dd rr bad w ->
  match walkNav E fuel (l1 ++ l2) dd rr bc st,
        walkNav E fuel (l1 ++ bad :: l2) dd rr bc st with
  | Some a, Some b =>
      out b = out a
      /\ exists la lb, logged a = la ++ lb /\ logged b = la ++ w :: lb
  | None, None => True
  | _, _ => False
  end.
Proof.
  intros Hwf Hskip.
  pose proof (Pure_walkNav_skip E fuel l1 bad l2 dd rr (elems (mem st) bc) (erase st) w Hskip) as H.
  rewrite <- !walkNav_erase in H by done.
  destruct (walkNav E fuel (l1 ++ l2) dd rr bc st),
           (walkNav E fuel (l1 ++ bad :: l2) dd rr bc st); done.
Qed.

(** The walk through a configuration that includes itself does not
    return, whatever the bound on nested inclusions. *)
Lemma loop_never_returns : forall fuel dd bc st,
  walkNav loopWorld fuel (Nav loopConfig) dd "/r" bc st = None.
Proof.
  assert (Hp : parseMkdocs loopWorld
                 (Filepath.Join ["/r"; includePath "!include ./mkdocs.yml"])
               = inr loopConfig) by (vm_compute; reflexivity).
  induction fuel as [|f IH]; intros dd bc st; [done|].
  cbn [walkNav]. unfold walkNodes.
  change (Nav loopConfig)
    with [leaf "index.md"; entry "Again" (leaf "!include ./mkdocs.yml")].
  unfold entry, leaf. cbn [each walkNavNode eachPair node_Value].
  change (isInclude "!include ./mkdocs.yml") with true. cbv iota.
  unfold handleInclude. rewrite Hp.
  destruct (append loopWorld _ bc "Again") as [h p]. by rewrite IH.
Qed.

(** The top-level configuration of [loopWorld] is read and parsed, and
    no database is written. *)
Lemma self_inclusion_never_returns :
  parseMkdocs loopWorld (Filepath.Join [tmpDir loopWorld; "mkdocs.yml"]) = inr loopConfig
  /\ (forall fuel helpURLs, main loopWorld fuel helpURLs = None)
  /\ (forall n, nests loopWorld (tmpDir loopWorld) n (Nav loopConfig) = false).
Proof.
  assert (Hp : parseMkdocs loopWorld (Filepath.Join [tmpDir loopWorld; "mkdocs.yml"])
               = inr loopConfig) by (vm_compute; reflexivity).
  split; [exact Hp|]. split.
  - intros fuel helpURLs. unfold main. rewrite Hp.
    change (tmpDir loopWorld) with "/r". by rewrite loop_never_returns.
  - assert (Hq : parseMkdocs loopWorld
                   (Filepath.Join ["/r"; includePath "!include ./mkdocs.yml"])
                 = inr loopConfig) by (vm_compute; reflexivity).
    change (tmpDir loopWorld) with "/r".
    induction n as [|n IH].
    + cbn [nests]. change (Nav loopConfig)
        with [leaf "index.md"; entry "Again" (leaf "!include ./mkdocs.yml")].
      unfold entry, leaf. cbn [forallb nestsNode forallbPair].
      change (isInclude "!include ./mkdocs.yml") with true. cbv iota.
      unfold includeOk. by rewrite Hq.
    + cbn [nests]. change (Nav loopConfig)
        with [leaf "index.md"; entry "Again" (leaf "!include ./mkdocs.yml")] at 1.
      unfold entry, leaf. cbn [forallb nestsNode forallbPair].
      change (isInclude "!include ./mkdocs.yml") with true. cbv iota.
      unfold includeOk. rewrite Hq. by rewrite IH.
Qed.

(** C9 (error propagation, amended).  A leaf without the [.md] suffix
    leaves the state as it is; an unreadable document and an unreadable or
    unparsable included configuration add one warning and nothing else;
    walking a list with such a node in it gives the entries of the list
    without it (and returns exactly when that walk does), with the one
    warning more; the run is fatal exactly when the top-level configuration
    cannot be read or parsed.  When that configuration is parsed and the
    inclusions nest at most [n] deep, the run with that bound writes a
    database, whatever documents and included configurations cannot be
    read, and the walk of a list with a skipped node returns with the
    entries of the list without it; a navigation without inclusions nests
    at every depth; and a run that returns with some bound on nested
    inclusions returns the same with any larger bound. *)
Theorem errors_skip_and_warn :
  (forall E md dd rr bc st,
     Strings.HasSuffix md ".md" = false -> addDoc E md dd rr bc st = st)
  /\ (forall E md dd rr bc st,
        Strings.HasSuffix md ".md" = true ->
        ReadFile E (Filepath.Join [dd; md]) = None ->
        addDoc E md dd rr bc st
        = warn (WarnDoc md (ErrRead (Filepath.Join [dd; md]))) st)
  /\ (forall E walk value t rr bc st err,
        parseMkdocs E (Filepath.Join [rr; includePath value]) = inl err ->
        handleInclude E walk value t rr bc st
        = Some (warn (WarnInclude (includePath value) err) st))
  /\ (forall E fuel l1 bad l2 dd rr bc st w,
        wf (mem st) bc -> skipped E dd rr bad w ->
        match walkNav E fuel (l1 ++ l2) dd rr bc st,
              walkNav E fuel (l1 ++ bad :: l2) dd rr bc st with
        | Some a, Some b =>
            out b = out a
            /\ exists la lb, logged a = la ++ lb /\ logged b = la ++ w :: lb
        | None, None => True
        | _, _ => False
        end)
  /\ (forall E fuel helpURLs e,
        main E fuel helpURLs = Some (Fatal e)
        <-> parseMkdocs E (Filepath.Join [tmpDir E; "mkdocs.yml"]) = inl e)
  /\ (forall E fuel helpURLs cfg,
        parseMkdocs E (Filepath.Join [tmpDir E; "mkdocs.yml"]) = inr cfg ->
        forallb includeFree (Nav cfg) = true ->
        exists db, main E (S fuel) helpURLs = Some (Wrote db))
  /\ (forall E fuel helpURLs o,
        main E fuel helpURLs = Some o -> main E (S fuel) helpURLs = Some o)
  /\ (forall E n helpURLs cfg,
        parseMkdocs E (Filepath.Join [tmpDir E; "mkdocs.yml"]) = inr cfg ->
        nests E (tmpDir E) n (Nav cfg) = true ->
        exists db, main E (S n) helpURLs = Some (Wrote db))
  /\ (forall E n l1 bad l2 dd rr bc st w,
        wf (mem st) bc -> skipped E dd rr bad w ->
        nests E rr n (l1 ++ l2) = true ->
        nests E rr n (l1 ++ bad :: l2) = true
        /\ exists a b,
             walkNav E (S n) (l1 ++ l2) dd rr bc st = Some a
             /\ walkNav E (S n) (l1 ++ bad :: l2) dd rr bc st = Some b
             /\ out b = out a
             /\ exists la lb, logged a = la ++ lb /\ logged b = la ++ w :: lb)
  /\ (forall E rr n nodes,
        forallb includeFree nodes = true -> nests E rr n nodes = true).
Proof.
  split; [|split; [|split; [|split; [|split; [|split; [|split; [|split; [|split]]]]]]]].
  - intros E md dd rr bc st Hs. unfold addDoc. by rewrite Hs.
  - intros E md dd rr bc st Hs Hr. unfold addDoc. by rewrite Hs, Hr.
  - intros E walk value t rr bc st err Hp. unfold handleInclude. by rewrite Hp.
  - intros. by apply walkNav_skip.
  - exact main_fatal.
  - exact main_total.
  - exact main_mono.
  - exact main_nests.
  - intros E n l1 bad l2 dd rr bc st w Hwf Hskip Hn.
    assert (Hbad : forall below, nestsNode E rr below bad = true).
    { intros below. destruct Hskip as [md ? ? | t md Hi ? ? | t value err Hi Hp]; simpl.
      - done.
      - by rewrite Hi.
      - rewrite Hi. unfold includeOk. by rewrite Hp. }
    assert (Hn' : nests E rr n (l1 ++ bad :: l2) = true).
    { destruct n as [|n]; cbn [nests] in *; rewrite forallb_app in *; simpl;
        apply andb_true_iff in Hn as [H1 H2]; by rewrite H1, H2, Hbad. }
    split; [exact Hn'|].
    pose proof (walkNav_skip E (S n) l1 bad l2 dd rr bc st w Hwf Hskip) as H.
    destruct (walkNav_nests E rr n _ dd bc st Hn) as [a Ha].
    destruct (walkNav_nests E rr n _ dd bc st Hn') as [b Hb].
    rewrite Ha, Hb in H. exists a, b. by destruct H.
  - intros E rr n nodes Hfree.
    assert (H : forall below, forallb (nestsNode E rr below) nodes = true).
    { intros below. apply forallb_forall. intros node Hin.
      apply includeFree_nestsNode. rewrite forallb_forall in Hfree. by apply Hfree. }
    destruct n; apply H.
Qed.

(** * Recovery *)










(** * Trimming and replacing *)

Lemma drop_append_string (a b : string) : Strings.drop (String.length a) (a +:+ b) = b.
Proof. induction a as [|c a IH]; [by destruct b | by rewrite append_cons]. Qed.

Lemma take_append_string (a b : string) : Strings.take (String.length a) (a +:+ b) = a.
Proof.
  induction a as [|c a IH]; [by destruct b|]. rewrite append_cons. simpl. by rewrite IH.
Qed.

Lemma HasSuffix_append (a suffix : string) : Strings.HasSuffix (a +:+ suffix) suffix = true.
Proof.
  unfold Strings.HasSuffix. rewrite length_append_string.
  replace (String.length a + String.length suffix - String.length suffix)
    with (String.length a) by lia.
  rewrite drop_append_string, String.eqb_refl, andb_true_r.
  apply Nat.leb_le. lia.
Qed.

Lemma TrimSuffix_append (a suffix : string) : Strings.TrimSuffix (a +:+ suffix) suffix = a.
Proof.
  unfold Strings.TrimSuffix. rewrite HasSuffix_append, length_append_string.
  replace (String.length a + String.length suffix - String.length suffix)
    with (String.length a) by lia.
  apply take_append_string.
Qed.

(** Two names without the separator, each in front of one: the one is a
    prefix of the other only when they are equal. *)
Lemma HasPrefix_segments sep (p site t : string) :
  lacks sep site = true -> lacks sep p = true ->
  Strings.HasPrefix (site +:+ String sep t) (p +:+ String sep EmptyString) = true ->
  site = p.
Proof.
  revert site. induction p as [|a p IH]; intros [|c site] Hs Hp; simpl in Hs, Hp.
  - done.
  - apply andb_true_iff in Hs as [Hc _]. rewrite append_cons. simpl.
    by destruct (Ascii.eqb sep c).
  - apply andb_true_iff in Hp as [Ha _]. rewrite append_cons. simpl.
    rewrite Ascii.eqb_sym. by destruct (Ascii.eqb sep a).
  - apply andb_true_iff in Hs as [_ Hs]. apply andb_true_iff in Hp as [_ Hp].
    rewrite !append_cons. simpl. destruct (Ascii.eqb_spec a c) as [->|]; [|done].
    intros H. f_equal. by apply IH.
Qed.

Lemma HasPrefix_segment (site t : string) :
  lacks "/" site = true -> site <> "docs" ->
  Strings.HasPrefix (site +:+ "/" +:+ t) "docs/" = false.
Proof.
  intros Hl Hne. destruct (Strings.HasPrefix _ _) eqn:H; [|done].
  exfalso. apply Hne. by apply (HasPrefix_segments "/" "docs" site t).
Qed.

Lemma replace_from_segment (old new site t : string) c :
  lacks c site = true ->
  Strings.replace_from (String c old) new 0 (site +:+ t)
  = site +:+ Strings.replace_from (String c old) new 0 t.
Proof.
  induction site as [|d site IH]; intros Hl; [done|].
  simpl in Hl. apply andb_true_iff in Hl as [Hd Hl].
  rewrite !append_cons. simpl. destruct (Ascii.eqb c d); [done|]. by rewrite IH.
Qed.

(** The docs directory of a sub-site is collapsed. *)
Lemma ReplaceAll_subsite (site t : string) :
  lacks "/" site = true ->
  Strings.ReplaceAll (site +:+ "/docs/" +:+ t) "/docs/" "/"
  = site +:+ "/" +:+ Strings.ReplaceAll t "/docs/" "/".
Proof.
  intros Hl. unfold Strings.ReplaceAll.
  rewrite (replace_from_segment "docs/" "/" site _ "/" Hl). reflexivity.
Qed.

Lemma normalizeFilePath_subsite (site stem : string) :
  lacks "/" site = true -> site <> "docs" ->
  Strings.ReplaceAll (stem +:+ ".md") "/docs/" "/" = stem +:+ ".md" ->
  normalizeFilePath (site +:+ "/docs/" +:+ stem +:+ ".md")
  = Strings.TrimSuffix (site +:+ "/" +:+ stem) "/index".
Proof.
  intros Hl Hne Hstem. unfold normalizeFilePath.
  rewrite ReplaceAll_subsite, Hstem by done.
  unfold Strings.TrimPrefix. rewrite HasPrefix_segment by done.
  replace (site +:+ "/" +:+ stem +:+ ".md") with ((site +:+ "/" +:+ stem) +:+ ".md")
    by (by rewrite !append_assoc_string).
  by rewrite TrimSuffix_append.
Qed.

Lemma normalizeFilePath_toplevel (stem : string) :
  Strings.ReplaceAll ("docs/" +:+ stem +:+ ".md") "/docs/" "/"
  = "docs/" +:+ stem +:+ ".md" ->
  normalizeFilePath ("docs/" +:+ stem +:+ ".md") = Strings.TrimSuffix stem "/index".
Proof.
  intros Hstem. unfold normalizeFilePath. rewrite Hstem.
  change (Strings.TrimPrefix ("docs/" +:+ stem +:+ ".md") "docs/") with (stem +:+ ".md").
  by rewrite TrimSuffix_append.
Qed.

(** * Path normalisation *)

(** The root index page keeps the name index. *)
Lemma normalize_root_index_not_empty :
  normalizeFilePath "docs/index.md" = "index"
  /\ normalizeFilePath "docs/index.md" <> EmptyString.
Proof. split; by vm_compute. Qed.

(** C2 (path normalisation, amended).  [normalizeFilePath] replaces every
    non-overlapping [/docs/] by [/], then strips a leading [docs/], then a
    trailing [.md], then a trailing [/index].  A document [stem.md] in the
    docs directory of a sub-site [site], with no docs directory below it,
    becomes [site/stem] without a trailing [/index]; one in the top-level
    docs directory becomes [stem] without a trailing [/index].  It maps
    site/docs/symbols/iota.md to site/symbols/iota, site/docs/foo/index.md to
    site/foo, and docs/index.md to index: the last step needs the separator
    before index, so the root index does not become the empty string. *)
Theorem normalizeFilePath_steps :
  (forall file,
     normalizeFilePath file
     = Strings.TrimSuffix
         (Strings.TrimSuffix
            (Strings.TrimPrefix (Strings.ReplaceAll file "/docs/" "/") "docs/") ".md")
         "/index")
  /\ (forall site stem,
        lacks "/" site = true -> site <> "docs" ->
        Strings.ReplaceAll (stem +:+ ".md") "/docs/" "/" = stem +:+ ".md" ->
        normalizeFilePath (site +:+ "/docs/" +:+ stem +:+ ".md")
        = Strings.TrimSuffix (site +:+ "/" +:+ stem) "/index")
  /\ (forall stem,
        Strings.ReplaceAll ("docs/" +:+ stem +:+ ".md") "/docs/" "/"
        = "docs/" +:+ stem +:+ ".md" ->
        normalizeFilePath ("docs/" +:+ stem +:+ ".md") = Strings.TrimSuffix stem "/index")
  /\ normalizeFilePath "site/docs/symbols/iota.md" = "site/symbols/iota"
  /\ normalizeFilePath "docs/index.md" = "index"
  /\ normalizeFilePath "site/docs/foo/index.md" = "site/foo".
Proof.
  split; [done|]. split; [exact normalizeFilePath_subsite|].
  split; [exact normalizeFilePath_toplevel|]. repeat split.
Qed.

(** * Keywords and hidden blocks *)

(** The body of [splicedDoc] is a hidden block, and its text is not among
    the keywords. *)
Lemma hidden_block_survives :
  let body := snd (extractTitleAndClean splicedDoc) in
  body = "<div style='display:none'>y</div>"
  /\ FindAllStringSubmatch hiddenDivRe body = ["y"]
  /\ snd (fst (extractTitleAndClean splicedDoc)) = EmptyString.
Proof. by vm_compute. Qed.

Lemma FindAll_lacks re c s :
  bol re = false -> first re = ch c -> lacks c s = true ->
  FindAllStringSubmatch re s = [].
Proof.
  intros Hb Hf Hl. unfold FindAllStringSubmatch, allMatches.
  by rewrite (scan_lacks re c).
Qed.

(** ** The scan leaves no match behind *)

Lemma matchAt_atbol re b b' s : bol re = false -> matchAt re b s = matchAt re b' s.
Proof. intros Hb. unfold matchAt. by rewrite Hb. Qed.

Lemma matchAt_empty re b : matchAt re b EmptyString = None.
Proof. unfold matchAt. by destruct (bol re && negb b). Qed.

Lemma drop_empty_string i : Strings.drop i EmptyString = EmptyString.
Proof. by destruct i. Qed.

(** [find] returns the first offset at which the pattern matches. *)
Lemma find_leftmost re : bol re = false -> forall s b off c n,
  find re b s = Some (off, c, n) ->
  (forall i b', i < off -> matchAt re b' (Strings.drop i s) = None)
  /\ (forall b', matchAt re b' (Strings.drop off s) = Some (c, n)).
Proof.
  intros Hb. induction s as [|d s IH]; intros b off c n H; simpl in H.
  - by rewrite matchAt_empty in H.
  - destruct (matchAt re b (String d s)) as [[c' n']|] eqn:Hm.
    + injection H as <- <- <-. split; [lia|]. intros b'. simpl.
      by rewrite (matchAt_atbol re b' b).
    + destruct (find re (Ascii.eqb d nl) s) as [[[off' c'] n']|] eqn:Hf; [|done].
      injection H as <- <- <-. apply IH in Hf as [Hbefore Hat]. split; [|done].
      intros [|i] b' Hi; simpl.
      * by rewrite (matchAt_atbol re b' b).
      * apply Hbefore. lia.
Qed.

Lemma find_none_all re : bol re = false -> forall s b,
  find re b s = None -> forall i b', matchAt re b' (Strings.drop i s) = None.
Proof.
  intros Hb. induction s as [|d s IH]; intros b H i b'.
  - rewrite drop_empty_string. apply matchAt_empty.
  - simpl in H. destruct (matchAt re b (String d s)) as [[c' n']|] eqn:Hm; [done|].
    destruct (find re (Ascii.eqb d nl) s) as [[[off' c'] n']|] eqn:Hf; [done|].
    destruct i as [|i]; simpl.
    + by rewrite (matchAt_atbol re b' b).
    + by eapply IH.
Qed.

Lemma scan_exhaustive re : bol re = false -> forall fuel b s hits tail,
  String.length s <= fuel -> scan re fuel b s = (hits, tail) ->
  exhaustive re s hits tail.
Proof.
  intros Hb. induction fuel as [|f IH]; intros b s hits tail Hlen Hs.
  - destruct s; [|simpl in Hlen; lia]. simpl in Hs. injection Hs as <- <-.
    apply exhaustive_nil. intros i b'. rewrite drop_empty_string. apply matchAt_empty.
  - rewrite scan_S in Hs. destruct (find re b s) as [[[off c] n]|] eqn:Hf.
    2:{ injection Hs as <- <-. apply exhaustive_nil. by eapply find_none_all. }
    cbv zeta in Hs. destruct (scan re f _ _) as [hits' tail'] eqn:Hrec.
    injection Hs as <- <-.
    pose proof (find_spec _ _ _ _ _ _ Hf) as (Hn & Hoff & _).
    apply (find_leftmost re Hb) in Hf as [Hbefore Hat].
    assert (Hsplit : Strings.take off s
                     +:+ Strings.take n (Strings.drop off s)
                     +:+ Strings.drop (off + n) s = s).
    { by rewrite <- drop_drop_string, !take_drop_string. }
    pose proof (exhaustive_cons re (Hit (Strings.take off s)
                                      (Strings.take n (Strings.drop off s)) c)
                  (Strings.drop (off + n) s) hits' tail') as Hc.
    simpl in Hc. rewrite Hsplit in Hc. apply Hc.
    + intros i b' Hi. apply Hbefore. rewrite length_take_string in Hi; lia.
    + intros b'. rewrite <- drop_drop_string, take_drop_string.
      rewrite length_take_string; [done|]. rewrite length_drop_string. lia.
    + eapply IH; [|exact Hrec]. rewrite length_drop_string. lia.
Qed.

(** Only one list of hits is exhaustive. *)
Lemma exhaustive_unique re s hits tail :
  exhaustive re s hits tail ->
  forall hits' tail', exhaustive re s hits' tail' -> hits' = hits /\ tail' = tail.
Proof.
  induction 1 as [s Hnone | h rest hits tail Hbefore Hat _ IH]; intros hits' tail' H'.
  - inversion H' as [s' _ | h' rest' hits2 tail2 _ Hat' _ Heq]; subst; [done|].
    specialize (Hnone (String.length (gap h')) true).
    rewrite drop_append_string, Hat' in Hnone. done.
  - inversion H' as [s' Hnone' Heq | h' rest' hits2 tail2 Hbefore' Hat' Hrest' Heq].
    + subst. specialize (Hnone' (String.length (gap h)) true).
      rewrite drop_append_string, Hat in Hnone'. done.
    + subst.
      assert (Hlen : String.length (gap h') = String.length (gap h)).
      { destruct (Nat.lt_trichotomy (String.length (gap h')) (String.length (gap h)))
          as [Hlt|[He|Hgt]]; [|done|].
        - specialize (Hbefore _ true Hlt). rewrite <- Heq in Hbefore.
          rewrite drop_append_string, Hat' in Hbefore. done.
        - specialize (Hbefore' _ true Hgt). rewrite Heq in Hbefore'.
          rewrite drop_append_string, Hat in Hbefore'. done. }
      assert (Hgap : gap h' = gap h).
      { rewrite <- (take_append_string (gap h') (text h' +:+ rest')), Heq, Hlen.
        apply take_append_string. }
      assert (Hafter : text h' +:+ rest' = text h +:+ rest).
      { rewrite <- (drop_append_string (gap h') (text h' +:+ rest')), Heq, Hlen.
        apply drop_append_string. }
      pose proof (Hat' true) as H1. rewrite Hafter, Hat in H1.
      injection H1 as Hgroup Htlen.
      assert (Htext : text h' = text h).
      { rewrite <- (take_append_string (text h') rest'), Hafter, <- Htlen.
        apply take_append_string. }
      assert (Hrest : rest' = rest).
      { rewrite <- (drop_append_string (text h') rest'), Hafter, <- Htlen.
        apply drop_append_string. }
      subst rest'. destruct (IH _ _ Hrest') as [-> ->].
      destruct h, h'. simpl in *. by subst.
Qed.

(** ** A hidden block starts with a div tag *)

Lemma lit_inv w : forall r s cap c n,
  matchHere (lit w ++ r) s cap = Some (c, n) ->
  exists s' m, s = w +:+ s' /\ matchHere r s' cap = Some (c, m).
Proof.
  induction w as [|a w IH]; intros r s cap c n H; simpl in H.
  - by exists s, n.
  - destruct s as [|d s]; [done|]. unfold ch in H at 1.
    destruct (Ascii.eqb a d) eqn:Ha; [|done]. apply Ascii.eqb_eq in Ha as <-.
    apply bump_Some in H as (m & Hm & ->). apply IH in Hm as (s' & m' & -> & Hm).
    by exists s', m'.
Qed.

Lemma lit_match w : forall r s' cap c m,
  matchHere r s' cap = Some (c, m) ->
  matchHere (lit w ++ r) (w +:+ s') cap = Some (c, String.length w + m).
Proof.
  induction w as [|a w IH]; intros r s' cap c m H; [done|].
  rewrite append_cons. simpl. unfold ch at 1. rewrite Ascii.eqb_refl.
  by rewrite (IH _ _ _ _ _ H).
Qed.

Lemma lacks_drop c j : forall s, lacks c (Strings.drop j s) = false -> lacks c s = false.
Proof.
  induction j as [|j IH]; intros [|d s]; simpl; try done.
  intros H. rewrite (IH _ H). apply andb_false_r.
Qed.

(** A match of items among which is the byte [c] takes a [c] from the
    text. *)
Lemma match_takes c r : forall s cap g n,
  matchHere r s cap = Some (g, n) -> In (One (ch c)) r -> lacks c s = false.
Proof.
  induction r as [|it r IH]; intros s cap g n H Hin; [done|].
  simpl in H. destruct it as [p | p | capture greedy least p | ].
  - destruct s as [|d s]; [done|]. destruct (p d) eqn:Hp; [|done].
    apply bump_Some in H as (m & Hm & ->). simpl.
    destruct Hin as [Heq | Hin].
    + injection Heq as ->. unfold ch in Hp. by rewrite Hp.
    + rewrite (IH _ _ _ _ Hm Hin). apply andb_false_r.
  - destruct Hin as [Heq | Hin]; [done|].
    destruct s as [|d s]; [by eapply IH|].
    destruct (p d); [|by eapply IH].
    destruct (bump (matchHere r s cap)) as [m|] eqn:Hb; [|by eapply IH].
    injection H as ->. apply bump_Some in Hb as (m & Hm & ->). simpl.
    rewrite (IH _ _ _ _ Hm Hin). apply andb_false_r.
  - destruct Hin as [Heq | Hin]; [done|].
    apply rep_inv in H as (j & _ & _ & Hm). simpl in Hm.
    apply (lacks_drop c j). by eapply IH.
  - destruct Hin as [Heq | Hin]; [done|].
    destruct s as [|d s]; [by eapply IH|].
    destruct (Ascii.eqb d nl); [by eapply IH | done].
Qed.

(** The rest of a tag, up to its closing bracket, matches wherever a
    closing bracket follows. *)
Lemma tag_rest c cap : forall t k,
  lacks c t = false ->
  exists m, rep true 0 (nch c) (fun _ u => matchHere [One (ch c)] u cap) k t
            = Some (cap, m).
Proof.
  induction t as [|d t IH]; intros k Hl; [done|].
  cbn [lacks] in Hl. cbn [rep]. unfold nch at 1.
  destruct (Ascii.eqb c d) eqn:Hd; cbn [negb].
  - cbn [Nat.leb matchHere]. unfold ch. rewrite Hd. cbn. by eexists.
  - cbn [negb andb] in Hl. destruct (IH (S k) Hl) as (m & ->). cbn. by eexists.
Qed.

Lemma div_tag_matches s' :
  lacks ">" s' = false ->
  is_Some (matchHere (rest divRe) ("div" +:+ s') EmptyString).
Proof.
  intros Hl. destruct (tag_rest ">" EmptyString s' 0 Hl) as (k & Hk).
  exists (EmptyString, 3 + k).
  transitivity (matchHere (lit "div" ++ [Rep false true 0 (nch ">"); One (ch ">")])
                  ("div" +:+ s') EmptyString); [reflexivity|].
  apply (lit_match "div"). exact Hk.
Qed.

Lemma hidden_block_is_div b s g n :
  matchAt hiddenDivRe b s = Some (g, n) -> is_Some (matchAt divRe b s).
Proof.
  unfold matchAt. change (bol hiddenDivRe) with false. change (bol divRe) with false.
  change (first hiddenDivRe) with (ch "<"). change (first divRe) with (ch "<").
  cbn [andb]. destruct s as [|d s]; [done|]. destruct (ch "<" d); [|done]. intros H.
  apply bump_Some in H as (m & Hm & ->).
  apply (lit_inv "div") in Hm as (s' & m' & -> & Hm).
  apply (match_takes ">") in Hm; [|simpl; tauto].
  destruct (div_tag_matches s' Hm) as [[g' k] ->]. done.
Qed.

Lemma find_implied re1 re2 :
  (forall b s g n, matchAt re1 b s = Some (g, n) -> is_Some (matchAt re2 b s)) ->
  forall s b, find re2 b s = None -> find re1 b s = None.
Proof.
  intros Himp. induction s as [|d s IH]; intros b H; simpl.
  - by rewrite matchAt_empty.
  - simpl in H. destruct (matchAt re2 b (String d s)) as [[g n]|] eqn:H2; [done|].
    destruct (matchAt re1 b (String d s)) as [[g n]|] eqn:H1.
    { apply Himp in H1. rewrite H2 in H1. by destruct H1. }
    destruct (find re2 (Ascii.eqb d nl) s) as [[[o g] n]|] eqn:Hf; [done|].
    by rewrite (IH _ Hf).
Qed.

(** A text without a div tag holds no hidden block. *)
Lemma no_div_no_hidden_block t :
  unmatched divRe t = true -> FindAllStringSubmatch hiddenDivRe t = [].
Proof.
  unfold unmatched. intros H.
  destruct (find divRe true t) as [m|] eqn:Hf; [done|].
  apply (find_implied hiddenDivRe divRe hidden_block_is_div) in Hf.
  unfold FindAllStringSubmatch, allMatches.
  destruct (String.length t) as [|f]; [done|]. by rewrite scan_S, Hf.
Qed.

(** C5 (keywords before hidden-block removal, amended).  For every
    document, the hidden blocks are the successive leftmost matches of the
    hidden-div pattern in the document (after its front matter): each is a
    match around its inner text, no match starts in the text before it and
    after the block before, none starts in the text after the last, and no
    other list of blocks is like that.  The keywords are the trimmed inner
    texts of these blocks that are not empty, in this order, joined by single
    spaces; the body is the conversion of the text between the blocks.  A
    body without a div tag holds no hidden block; when the text between
    the blocks is settled (no conversion finds anything to replace in it, as
    in a text without [<]), the body is that text and holds no hidden block.  The document [demoDoc], whose
    hidden block holds alpha beta, gives these keywords and a body without
    the block. *)
Theorem keywords_from_hidden_blocks raw :
  let s := stripFrontMatter raw in
  let hits := fst (allMatches hiddenDivRe s) in
  let tail := snd (allMatches hiddenDivRe s) in
  let kept := concat_strings (map gap hits) +:+ tail in
  let body := snd (extractTitleAndClean raw) in
  s = concat_strings (map (fun h => gap h +:+ text h) hits) +:+ tail
  /\ extractTitleAndClean raw
     = (extractTitle s,
        Strings.Join (filter nonEmpty (map Strings.TrimSpace (map group hits))) " ",
        convertMarkup kept)
  /\ Forall (fun h => exists b after,
                matchAt hiddenDivRe b (text h +:+ after)
                = Some (group h, String.length (text h))) hits
  /\ exhaustive hiddenDivRe s hits tail
  /\ (forall hits' tail',
        exhaustive hiddenDivRe s hits' tail' ->
        hits' = hits /\ tail' = tail
        /\ extractTitleAndClean raw
           = (extractTitle s,
              Strings.Join
                (filter nonEmpty (map Strings.TrimSpace (map group hits'))) " ",
              convertMarkup (concat_strings (map gap hits') +:+ tail')))
  /\ (unmatched divRe body = true -> FindAllStringSubmatch hiddenDivRe body = [])
  /\ (settled kept = true ->
      body = kept /\ FindAllStringSubmatch hiddenDivRe body = [])
  /\ (plain kept = true ->
      body = kept /\ FindAllStringSubmatch hiddenDivRe body = [])
  /\ extractTitleAndClean demoDoc
     = ("Iota", "alpha beta",
        "# Iota " +:+ NL +:+ "Index **generator**" +:+ NL).
Proof.
  intros s hits tail kept body.
  destruct (extractTitleAndClean_parts raw) as [Hs He]. fold s hits tail kept in Hs, He.
  assert (Hex : exhaustive hiddenDivRe s hits tail).
  { apply (scan_exhaustive hiddenDivRe eq_refl (String.length s) true); [done|].
    subst hits tail. unfold allMatches. by destruct (scan hiddenDivRe _ true s). }
  split; [exact Hs|]. split; [exact He|]. split.
  { apply (scan_hits hiddenDivRe (String.length s) true s hits tail).
    subst hits tail. unfold allMatches. by destruct (scan hiddenDivRe _ true s). }
  split; [exact Hex|]. split.
  { intros hits' tail' H'.
    destruct (exhaustive_unique _ _ _ _ Hex _ _ H') as [-> ->]. done. }
  split; [apply no_div_no_hidden_block|].
  assert (Hset : settled kept = true ->
                 body = kept /\ FindAllStringSubmatch hiddenDivRe body = []).
  { intros Hk. subst body. rewrite He. simpl.
    rewrite (proj2 (convertMarkup_fixed kept) Hk). split; [done|].
    apply no_div_no_hidden_block. unfold settled, conversions in Hk. simpl in Hk.
    repeat (apply andb_true_iff in Hk as [? Hk]). done. }
  split; [exact Hset|].
  split; [|by vm_compute].
  intros Hp. apply Hset. by apply plain_settled.
Qed.

(** * The theorems at concrete inputs *)

(** The hazard is there: with spare capacity the second sub-section
    overwrites the slot the first one wrote its title to. *)
Example siblings_share_a_slot :
  option_map mem
    (walkNav demoWorld 1 twoSiblings "/r/docs" "/r" guideSlice (State guideHeap [] []))
  = Some [["Guide"; "S"; "B"; "z"]].
Proof. reflexivity. Qed.

(** The example of the comment on [buildNavPath]. *)
Example buildNavPath_example :
  buildNavPath "language-reference-guide/symbols/iota"
  = "Language Reference Guide / Symbols / Iota".
Proof. reflexivity. Qed.

(** A later page recovered under the same key takes the key over: the file
    [s/docs/a/index.md] is found for [s/a] and then again for [s/a/index],
    and both are stored under [s/a]. *)
Example later_page_takes_the_key :
  r_index
    (foldl (recover orphanWorld) (Recovery [] ∅ 0 0)
       [{| symbol := "one"; url := "s/a" |}; {| symbol := "two"; url := "s/a/index" |}])
  = {[ "s/a" := "S / A / Index" ]}.
Proof. by vm_compute. Qed.

(** A run over the demonstration repository: the second [S / A] is dropped,
    the missing document and the broken inclusion are warnings, the page
    outside the navigation is recovered, and the path nope is not matched. *)
Example main_demo :
  option_map
    (fun o => match o with
              | Wrote db => (map path (docs db), help_urls db, length (warnings db))
              | Fatal _ => ([], [], 0)
              end)
    (main demoWorld 2 "urls.json")
  = Some (["index.md"; "S / A"; "S / B"; "Sub"; "Sub / X"; "Sub / W"],
          [("y", "Sub / X"); ("w", "Sub / W"); ("q", "Sub / X")], 2).
Proof. by vm_compute. Qed.

Lemma walkNav_breadcrumb_isolation_witness :
  wf guideHeap guideSlice
  /\ exists st',
       walkNav demoWorld 1 twoSiblings "/r/docs" "/r" guideSlice (State guideHeap [] [])
       = Some st'
       /\ map path (out st') = ["Guide / S / A"; "Guide / S / B"].
Proof.
  assert (Hwf : wf guideHeap guideSlice).
  { split; [simpl; lia|]. intros _. eexists. split; reflexivity. }
  split; [exact Hwf|].
  exact (proj2 (walkNav_breadcrumb_isolation demoWorld 0 "/r/docs" "/r" guideSlice
                  (State guideHeap [] []) Hwf)
           "S" "A" "B" "a.md" "b.md" "no title" "# B"
           eq_refl eq_refl eq_refl eq_refl).
Defined.

Lemma catalog_path_unique_witness :
  exists db,
    main demoWorld 2 "urls.json" = Some (Wrote db) /\ NoDup (map path (docs db)).
Proof.
  eexists. split; [vm_compute; reflexivity|].
  refine (proj1 (proj2 catalog_path_unique_first_wins demoWorld 2 "urls.json" _ _)).
  vm_compute. reflexivity.
Defined.

Lemma convertMarkup_idempotent_iff_settled_witness :
  plain (convertMarkup tableDoc) = false
  /\ settled (convertMarkup tableDoc) = true
  /\ convertMarkup (convertMarkup tableDoc) = convertMarkup tableDoc
  /\ convertMarkup (convertMarkup taggedDoc) = convertMarkup taggedDoc.
Proof.
  split; [vm_compute; reflexivity|]. split; [vm_compute; reflexivity|]. split.
  - apply (proj2 (proj1 convertMarkup_idempotent_iff_settled tableDoc)).
    vm_compute. reflexivity.
  - apply (proj2 (proj1 convertMarkup_idempotent_iff_settled taggedDoc)).
    vm_compute. reflexivity.
Defined.

Lemma keywords_from_hidden_blocks_witness :
  extractTitleAndClean linkedDoc = (EmptyString, "k1", "intro <a href='x'>outro</a>")
  /\ plain (snd (extractTitleAndClean linkedDoc)) = false
  /\ FindAllStringSubmatch hiddenDivRe (snd (extractTitleAndClean linkedDoc)) = [].
Proof.
  split; [vm_compute; reflexivity|]. split; [vm_compute; reflexivity|].
  refine (proj1 (proj2 (proj2 (proj2 (proj2 (proj2
            (keywords_from_hidden_blocks linkedDoc)))))) _).
  vm_compute. reflexivity.
Defined.

Lemma matchHelpURL_three_tiers_witness :
  let idx : gmap string string :=
    {[ "lang/primitives/index-generator" := "Index Generator" ]} in
  let e := {| symbol := "iota"; url := "primitives/index-generator" |} in
  matchHelpURL (url e) idx (rangeOrder demoWorld 0 idx) = Some "Index Generator"
  /\ In ("iota", "Index Generator")
       (m_table (foldl (associate demoWorld idx) (Matching [] 0 0) [e])).
Proof.
  intros idx e.
  assert (Hm : matchHelpURL (url e) idx (rangeOrder demoWorld (0 + length (@nil helpURLEntry)) idx)
               = Some "Index Generator") by (vm_compute; reflexivity).
  split; [exact Hm|].
  refine (proj1 (proj2
            (proj1 (proj2 (proj2 (proj2 (proj2 (proj2 matchHelpURL_three_tiers)))))
               demoWorld idx [] e [] 0 "Index Generator" Hm)) _).
  intros e' k [].
Defined.

Lemma suffix_scan_deterministic_witness :
  matchHelpURL "x" sameTarget [("a/x", "P"); ("b/x", "P")]
  = matchHelpURL "x" sameTarget [("b/x", "P"); ("a/x", "P")].
Proof.
  assert (Hl : Permutation [("a/x", "P"); ("b/x", "P")] (map_to_list sameTarget)).
  { unfold sameTarget. rewrite map_to_list_insert by done.
    rewrite map_to_list_singleton. reflexivity. }
  apply (suffix_scan_deterministic_when_unambiguous sameTarget "x").
  - exact Hl.
  - rewrite <- Hl. apply perm_swap.
  - intros fp1 p1 fp2 p2 H1 H2 _ _. unfold sameTarget in H1, H2.
    apply lookup_insert_Some in H1 as [[_ <-]|[_ H1]];
      apply lookup_insert_Some in H2 as [[_ <-]|[_ H2]];
      try apply lookup_singleton_Some in H1 as [_ <-];
      try apply lookup_singleton_Some in H2 as [_ <-]; reflexivity.
Defined.


Lemma errors_skip_and_warn_witness :
  let bad := entry "C" (leaf "c.md") in
  let before := [leaf "index.md"] in
  let after := [section "S" [leaf "b.md"]] in
  skipped demoWorld "/r/docs" "/r" bad (WarnDoc "c.md" (ErrRead "/r/docs/c.md"))
  /\ option_map (fun st => map path (out st))
       (walkNav demoWorld 1 (before ++ bad :: after) "/r/docs" "/r" nil_slice
          (State [] [] []))
     = Some ["index.md"; "S"]
  /\ option_map (fun st => map path (out st))
       (walkNav demoWorld 1 (before ++ after) "/r/docs" "/r" nil_slice (State [] [] []))
     = Some ["index.md"; "S"]
  /\ forallb includeFree (Nav topConfig) = false
  /\ nests demoWorld (tmpDir demoWorld) 1 (Nav topConfig) = true
  /\ exists db, main demoWorld 2 "urls.json" = Some (Wrote db).
Proof.
  intros bad before after.
  assert (Hs : skipped demoWorld "/r/docs" "/r" bad
                 (WarnDoc "c.md" (ErrRead "/r/docs/c.md"))).
  { apply (skip_entry demoWorld "/r/docs" "/r" "C" "c.md"); reflexivity. }
  assert (Hwf : wf [] nil_slice).
  { split; [simpl; lia|]. simpl. intros H. exfalso. lia. }
  assert (Hn : nests demoWorld (tmpDir demoWorld) 1 (Nav topConfig) = true)
    by (vm_compute; reflexivity).
  split; [exact Hs|].
  pose proof (proj1 (proj2 (proj2 (proj2 errors_skip_and_warn))) demoWorld 1 before bad
                after "/r/docs" "/r" nil_slice (State [] [] [])
                (WarnDoc "c.md" (ErrRead "/r/docs/c.md")) Hwf Hs) as H.
  destruct (walkNav demoWorld 1 (before ++ after) "/r/docs" "/r" nil_slice (State [] [] []))
    as [a|] eqn:Ha;
  destruct (walkNav demoWorld 1 (before ++ bad :: after) "/r/docs" "/r" nil_slice
              (State [] [] [])) as [b|] eqn:Hb; try (exfalso; exact H).
  - destruct H as [Hout _]. simpl. rewrite Hout.
    vm_compute in Ha. injection Ha as <-.
    split; [reflexivity|]. split; [reflexivity|]. split; [vm_compute; reflexivity|].
    split; [exact Hn|].
    exact (proj1 (proj2 (proj2 (proj2 (proj2 (proj2 (proj2 (proj2 errors_skip_and_warn)))))))
             demoWorld 1 "urls.json" topConfig eq_refl Hn).
  - vm_compute in Ha. discriminate Ha.
Defined.

Lemma findHelpFile_single_segment_witness :
  lacks "/" "nope" = true /\ findHelpFile demoWorld "nope" "/r" = ([], None).
Proof.
  split; [reflexivity|].
  exact (proj1 (findHelpFile_single_segment demoWorld "nope" "/r" eq_refl)).
Defined.

